(** * PokerGameService: the session layer of node-poker-app

    A shallow embedding of [backend/src/services/PokerGameService.ts].
    The service owns one engine [Table], a registry of connected players
    and the WebSocket server; every handler reads and mutates that state,
    sends JSON messages and uses [try]/[catch].  Handlers are therefore
    written in a small monad carrying the service state, the list of
    messages sent and a possible exception.

    The poker engine itself ([@chevtek/poker-engine]) is an external
    package: its operations are the fields of the class [Engine], and
    what a statement about the service takes from it is spelled out as a
    hypothesis of that statement.  Statements that rest on the rules of
    the game are proved for [SpecEngine], the engine as the specification
    describes it.

    Numbers: a JavaScript number is an IEEE 754 double and is modelled
    by a primitive [float], with the operators [+], [-], [/], [<] and
    [===] of the source as the float operations.  The three numbers
    handed to the [Table] constructor (minimum buy-in and blinds) are
    integers in every table the service builds and are kept in [Z]. *)

From Stdlib Require Import String ZArith List Bool Lia DecimalString.
From Stdlib Require Import PrimFloat Uint63.
Import ListNotations.

Open Scope string_scope.
Open Scope list_scope.
Open Scope Z_scope.

Set Implicit Arguments.

(** ** Numbers *)

(** The double that holds an integer (exactly so below [2^53]). *)
Definition ofZ (z : Z) : float :=
  match z with
  | Z0 => 0%float
  | Zpos _ => PrimFloat.of_uint63 (Uint63.of_Z z)
  | Zneg q => PrimFloat.opp (PrimFloat.of_uint63 (Uint63.of_Z (Zpos q)))
  end.

(** [x || 0] on a number: [0], [-0] and [NaN] are falsy. *)
Definition orZero (x : float) : float :=
  if (x =? 0)%float || PrimFloat.is_nan x then 0%float else x.

(** ** Engine data, as far as the service reads it *)

Record Card := mkCard { rank : string; suit : string }.

Inductive BettingRound := PRE_FLOP | FLOP | TURN | RIVER.

(** A seated player.  [holeCards] is optional in the engine. *)
Record Player := mkPlayer {
  id : string;
  stackSize : float;
  bet : float;
  folded : bool;
  holeCards : option (list Card)
}.

(** A pot; [potWinners] is the pot's optional [winners] array. *)
Record Pot := mkPot {
  amount : float;
  eligiblePlayers : list Player;
  potWinners : option (list Player)
}.

(** The table.  [players] is the seat array ([None] is an empty seat,
    [null] in the source); the optional properties of the engine's
    [Table] are options.  [buyIn], [smallBlind] and [bigBlind] are the
    constructor's arguments.  [deck] and [dealerPosition] are engine
    state the service never reads. *)
Record Table := mkTable {
  buyIn : Z;
  smallBlind : Z;
  bigBlind : Z;
  players : list (option Player);
  currentActor : option Player;
  communityCards : list Card;
  pots : list Pot;
  currentBet : option float;
  currentRound : option BettingRound;
  lastRaise : option float;
  winners : option (list Player);
  deck : list Card;
  dealerPosition : option nat
}.

(** An engine call either returns or throws an [Error] with a message;
    the table is a mutable object, so both outcomes carry the table as the
    call left it. *)
Inductive Outcome :=
| Returns (t : Table)
| Throws (message : string) (t : Table).

Class Engine := {
  newTable : Z -> Z -> Z -> Table;
  sitDown : Table -> string -> float -> Outcome;
  standUp : Table -> Player -> Outcome;
  dealCards : Table -> Outcome;
  callAction : Table -> Player -> Outcome;
  checkAction : Table -> Player -> Outcome;
  foldAction : Table -> Player -> Outcome;
  betAction : Table -> Player -> float -> Outcome;
  raiseAction : Table -> Player -> float -> Outcome;
  legalActions : Table -> Player -> list string
}.

(** ** Connections and the registry *)

Definition WebSocket := nat.

Inductive ReadyState := CONNECTING | OPEN | CLOSING | CLOSED.

Record Client := mkClient { clientSocket : WebSocket; readyState : ReadyState }.

Record ConnectedPlayer := mkConnected {
  cpId : string;
  name : string;
  socket : WebSocket
}.

(** [connectedPlayers] is a JavaScript [Map]: iteration follows insertion
    order and [set] on a present key keeps the key's position. *)
Definition Registry := list (string * ConnectedPlayer).

Fixpoint map_get (k : string) (m : Registry) : option ConnectedPlayer :=
  match m with
  | [] => None
  | (k', v) :: r => if (k' =? k)%string then Some v else map_get k r
  end.

Fixpoint map_set (k : string) (v : ConnectedPlayer) (m : Registry) : Registry :=
  match m with
  | [] => [(k, v)]
  | (k', v') :: r =>
      if (k' =? k)%string then (k, v) :: r else (k', v') :: map_set k v r
  end.

Definition map_delete (k : string) (m : Registry) : Registry :=
  filter (fun e => negb (fst e =? k)%string) m.

(** ** Messages sent to clients *)

(** The per-player object of [getPlayerState]. *)
Record PlayerState := mkPlayerState {
  ps_holeCards : list Card;
  ps_availableActions : list string;
  ps_stackSize : float;
  ps_bet : float;
  ps_isCurrentActor : bool;
  ps_communityCards : list Card;
  ps_pot : float;
  ps_currentBet : option float;
  ps_currentRound : option BettingRound
}.

(** One seat of [getPublicPlayerStates]. *)
Record PublicPlayer := mkPublicPlayer {
  pub_id : string;
  pub_name : option string;
  pub_stackSize : float;
  pub_bet : float;
  pub_folded : bool;
  pub_isCurrentActor : bool
}.

(** The [state] of the public [gameState] broadcast. *)
Record PublicState := mkPublicState {
  g_communityCards : list Card;
  g_pot : float;
  g_currentBet : option float;
  g_currentActor : option string;
  g_currentRound : option BettingRound;
  g_players : list (option PublicPlayer)
}.

(** The [state] of a [privateState] message. *)
Record PrivateState := mkPrivateState {
  pv_holeCards : option (list Card);
  pv_availableActions : list string;
  pv_minRaise : float;
  pv_maxBet : float
}.

Record WinnerEntry := mkWinnerEntry { playerId : string; wonAmount : float }.

(** Messages by their [type] field; [gameState] has two shapes. *)
Inductive ServerMessage :=
| MsgPlayerGameState (state : PlayerState)
| MsgGameState (state : PublicState)
| MsgPlayers (seats : list (option PublicPlayer))
| MsgPrivateState (state : PrivateState)
| MsgHandComplete (entries : option (list WinnerEntry))
| MsgNotification (message : string)
| MsgGameReset (message : string)
| MsgError (error : string).

(** A message handed to [socket.send]. *)
Record Sent := mkSent { recipient : WebSocket; payload : ServerMessage }.

(** ** The service state *)

Record Service := mkService {
  table : Table;
  connectedPlayers : Registry;
  wss : list Client
}.

Definition withTable (t : Table) (s : Service) : Service :=
  mkService t (connectedPlayers s) (wss s).

Definition withRegistry (r : Registry) (s : Service) : Service :=
  mkService (table s) r (wss s).

(** ** The handler monad: state, sent messages, exceptions *)

Inductive Completion (A : Type) :=
| Normal (a : A)
| Abrupt (message : string).

Arguments Normal {A} a.
Arguments Abrupt {A} message.

Definition M (A : Type) : Type := Service -> Completion A * Service * list Sent.

Definition ret {A} (a : A) : M A := fun s => (Normal a, s, []).

Definition bind {A B} (m : M A) (k : A -> M B) : M B := fun s =>
  match m s with
  | (Normal a, s1, o1) =>
      match k a s1 with (r, s2, o2) => (r, s2, o1 ++ o2) end
  | (Abrupt e, s1, o1) => (Abrupt e, s1, o1)
  end.

Definition throw {A} (e : string) : M A := fun s => (Abrupt e, s, []).

(** [try { m } catch (error) { h error.message }] *)
Definition tryCatch {A} (m : M A) (h : string -> M A) : M A := fun s =>
  match m s with
  | (Normal a, s1, o1) => (Normal a, s1, o1)
  | (Abrupt e, s1, o1) =>
      match h e s1 with (r, s2, o2) => (r, s2, o1 ++ o2) end
  end.

Definition gets {A} (f : Service -> A) : M A := fun s => (Normal (f s), s, []).

Definition modify (f : Service -> Service) : M unit := fun s => (Normal tt, f s, []).

Definition emit (o : list Sent) : M unit := fun s => (Normal tt, s, o).

Declare Scope service_scope.
Delimit Scope service_scope with service.
Notation "x <- m ;; k" := (bind m (fun x => k))
  (at level 61, m at next level, right associativity) : service_scope.
Notation "m ;; k" := (bind m (fun _ => k))
  (at level 61, right associativity) : service_scope.
Open Scope service_scope.

(** An engine call on the service's table. *)
Definition callEngine (op : Table -> Outcome) : M unit := fun s =>
  match op (table s) with
  | Returns t => (Normal tt, withTable t s, [])
  | Throws e t => (Abrupt e, withTable t s, [])
  end.

(** Projections of a run. *)
Definition completion {A} (r : Completion A * Service * list Sent) := fst (fst r).
Definition final {A} (r : Completion A * Service * list Sent) := snd (fst r).
Definition sent {A} (r : Completion A * Service * list Sent) := snd r.

Definition get : M Service := gets (fun s => s).

(** [for (const x of l) { f x }] *)
Fixpoint forEach {A} (l : list A) (f : A -> M unit) : M unit :=
  match l with
  | [] => ret tt
  | x :: r => f x ;; forEach r f
  end.

(** ** Reading the table *)

(** The callback [(p) => p?.id === playerId] on one seat; [playerId] is a
    string, so an empty seat never matches. *)
Definition hasId (playerId : string) (seat : option Player) : bool :=
  match seat with
  | Some p => (id p =? playerId)%string
  | None => false
  end.

(** [table.players.find((p) => p?.id === playerId)] *)
Definition findPlayer (t : Table) (playerId : string) : option Player :=
  match find (hasId playerId) (players t) with
  | Some seat => seat
  | None => None
  end.

(** [table.currentActor?.id === playerId] *)
Definition isCurrentActor (t : Table) (playerId : string) : bool :=
  match currentActor t with
  | Some p => (id p =? playerId)%string
  | None => false
  end.

(** [table.pots.reduce((total, pot) => total + pot.amount, 0)] *)
Definition potTotal (t : Table) : float :=
  fold_left (fun total pot => (total + amount pot)%float) (pots t) 0%float.

(** [table.currentBet || 0] *)
Definition currentBetOrZero (t : Table) : float :=
  match currentBet t with Some b => orZero b | None => 0%float end.

(** [table.lastRaise ?? table.bigBlind] *)
Definition minRaise (t : Table) : float :=
  match lastRaise t with Some r => r | None => ofZ (bigBlind t) end.

Definition hasChips (seat : option Player) : bool :=
  match seat with Some p => (0 <? stackSize p)%float | None => false end.

(** The number of seated players with chips. *)
Definition seatedWithChips (t : Table) : nat :=
  length (filter hasChips (players t)).

(** ** The checks of the [raise] case (lines 142-162) *)

(** [amount === player.stackSize], with [amount] possibly [undefined]. *)
Definition isAllIn (player : Player) (amount : option float) : bool :=
  match amount with
  | Some a => (a =? stackSize player)%float
  | None => false
  end.

Definition isPreFlop (t : Table) : bool :=
  match communityCards t with [] => true | _ => false end.

Definition isSmallBlindPosition (t : Table) (player : Player) : bool :=
  (bet player =? ofZ (smallBlind t))%float.

Definition isRaisingToBigBlind (t : Table) (player : Player) (a : float) : bool :=
  isPreFlop t && isSmallBlindPosition t player && (a =? ofZ (bigBlind t))%float.

Definition raiseAmount (t : Table) (a : float) : float :=
  (a - currentBetOrZero t)%float.

(** The condition of the [if] that throws in the [raise] case. *)
Definition raiseRejected (t : Table) (player : Player) (a : float) : bool :=
  negb (isAllIn player (Some a)) && negb (isRaisingToBigBlind t player a)
  && (raiseAmount t a <? ofZ (bigBlind t))%float.

Definition showZ (z : Z) : string := NilZero.string_of_int (Z.to_int z).

Definition raiseMessage (t : Table) : string :=
  ("Raise must increase the current bet by at least the big blind ("
   ++ showZ (bigBlind t) ++ ")")%string.

(** The condition of the [if] that throws in the [bet] case. *)
Definition betRejected (t : Table) (player : Player) (a : float) : bool :=
  negb (isAllIn player (Some a)) && (a <? ofZ (bigBlind t))%float.

(** ** The share announced to a winner (lines 245-251) *)

(** [arr.includes(w)] on player objects.  The source compares object
    references; the engine keeps one object per seated id, so an object is
    identified with its [id]. *)
Definition includes (ws : list Player) (w : Player) : bool :=
  existsb (fun x => (id x =? id w)%string) ws.

(** [pot.winners?.includes(w)] *)
Definition winsPot (pot : Pot) (w : Player) : bool :=
  match potWinners pot with
  | Some ws => includes ws w
  | None => false
  end.

(** [pot.winners?.length || 1], as the double it is. *)
Definition winnerCount (pot : Pot) : float :=
  match potWinners pot with
  | Some ws => if (length ws =? 0)%nat then 1%float else ofZ (Z.of_nat (length ws))
  | None => 1%float
  end.

(** The callback of the [reduce] over the pots. *)
Definition addShare (w : Player) (total : float) (pot : Pot) : float :=
  if winsPot pot w
  then (total + amount pot / winnerCount pot)%float
  else total.

Definition winnerAmount (t : Table) (w : Player) : float :=
  fold_left (addShare w) (pots t) 0%float.

Definition handCompleteMessage (t : Table) : ServerMessage :=
  MsgHandComplete
    (option_map (map (fun w => mkWinnerEntry (id w) (winnerAmount t w)))
                (winners t)).

(** ** Public projection (lines 274-287 and 302-312) *)

Definition registeredName (r : Registry) (playerId : string) : option string :=
  option_map name (map_get playerId r).

Definition publicPlayer (s : Service) (player : Player) : PublicPlayer :=
  mkPublicPlayer (id player)
                 (registeredName (connectedPlayers s) (id player))
                 (stackSize player) (bet player) (folded player)
                 (isCurrentActor (table s) (id player)).

Definition getPublicPlayerStates (s : Service) : list (option PublicPlayer) :=
  map (option_map (publicPlayer s)) (players (table s)).

Definition publicState (s : Service) : PublicState :=
  mkPublicState (communityCards (table s)) (potTotal (table s))
                (currentBet (table s)) (option_map id (currentActor (table s)))
                (currentRound (table s)) (getPublicPlayerStates s).

Definition isOpen (c : Client) : bool :=
  match readyState c with OPEN => true | _ => false end.

(** What [broadcast(message)] hands to the sockets: one copy to every
    client of the server whose ready state is [OPEN]. *)
Definition toAll (s : Service) (message : ServerMessage) : list Sent :=
  map (fun c => mkSent (clientSocket c) message) (filter isOpen (wss s)).

(** ** The handlers *)

Section PokerGameService.

Context {E : Engine}.

Definition FIXED_BUY_IN : float := 1000%float.

(** The state built by the constructor. *)
Definition initialService (server : list Client) : Service :=
  mkService (newTable 1000 5 10) [] server.

(** [getPlayerState] (lines 259-272): [x || d] falls back to [d] on
    [undefined] and on a falsy number; an array is never falsy. *)
Definition getPlayerState (s : Service) (playerId : string) : PlayerState :=
  let t := table s in
  let player := findPlayer t playerId in
  mkPlayerState
    (match player with
     | Some p => match holeCards p with Some c => c | None => [] end
     | None => []
     end)
    (match player with Some p => legalActions t p | None => [] end)
    (match player with Some p => orZero (stackSize p) | None => 0%float end)
    (match player with Some p => orZero (bet p) | None => 0%float end)
    (isCurrentActor t playerId)
    (communityCards t) (potTotal t) (currentBet t) (currentRound t).

(** The [state] sent to one registered player by [broadcastGameState]
    (lines 316-328). *)
Definition privateState (s : Service) (playerId : string) : PrivateState :=
  let t := table s in
  let currentPlayer := findPlayer t playerId in
  mkPrivateState
    (match currentPlayer with Some p => holeCards p | None => None end)
    (if isCurrentActor t playerId
     then match currentActor t with Some a => legalActions t a | None => [] end
     else [])
    (minRaise t)
    (match currentPlayer with Some p => stackSize p | None => 0%float end).

Definition broadcast (message : ServerMessage) : M unit :=
  s <- get ;; emit (toAll s message).

Definition sendToPlayer (playerId : string) (message : ServerMessage) : M unit :=
  s <- get ;;
  match map_get playerId (connectedPlayers s) with
  | Some player => emit [mkSent (socket player) message]
  | None => ret tt
  end.

(** The message of the [TypeError] raised by [undefined.send(...)]. *)
Definition undefinedSend : string :=
  "Cannot read properties of undefined (reading 'send')".

(** [sendError(socket, error)]; the socket is [undefined] when it comes
    from [connectedPlayers.get(playerId)?.socket!] on an unregistered id. *)
Definition sendError (sock : option WebSocket) (error : string) : M unit :=
  match sock with
  | Some k => emit [mkSent k (MsgError error)]
  | None => throw undefinedSend
  end.

Definition handleHandComplete : M unit :=
  s <- get ;; broadcast (handCompleteMessage (table s)).

Definition broadcastGameState : M unit :=
  s <- get ;;
  broadcast (MsgGameState (publicState s)) ;;
  forEach (connectedPlayers s) (fun entry =>
    s' <- get ;;
    sendToPlayer (fst entry) (MsgPrivateState (privateState s' (fst entry)))).

(** [if (!this.table.currentRound) this.handleHandComplete()] *)
Definition checkHandOver : M unit :=
  s <- get ;;
  match currentRound (table s) with
  | None => handleHandComplete
  | Some _ => ret tt
  end.

(** [handlePlayerJoin] (lines 70-95).  [buyIn] is a parameter the body
    never reads. *)
Definition handlePlayerJoin (sock : WebSocket) (playerId nm : string)
    (buyIn : float) : M unit :=
  tryCatch
    (callEngine (fun t => sitDown t playerId FIXED_BUY_IN) ;;
     modify (fun s =>
       withRegistry
         (map_set playerId (mkConnected playerId nm sock) (connectedPlayers s))
         s) ;;
     s <- get ;;
     sendToPlayer playerId (MsgPlayerGameState (getPlayerState s playerId)) ;;
     s' <- get ;;
     broadcast (MsgPlayers (getPublicPlayerStates s')))
    (fun error => sendError (Some sock) error).

(** [handlePlayerLeave] (lines 97-108). *)
Definition handlePlayerLeave (playerId : string) : M unit :=
  s <- get ;;
  match findPlayer (table s) playerId with
  | Some player =>
      callEngine (fun t => standUp t player) ;;
      modify (fun s => withRegistry (map_delete playerId (connectedPlayers s)) s) ;;
      s' <- get ;;
      broadcast (MsgPlayers (getPublicPlayerStates s'))
  | None => ret tt
  end.

(** The [switch (action)] of [handlePlayerAction] (lines 124-167): the
    service's own checks, then the engine call on the player found. *)
Definition performAction (t : Table) (player : Player) (action : string)
    (amount : option float) : Outcome :=
  if (action =? "call")%string then callAction t player
  else if (action =? "check")%string then checkAction t player
  else if (action =? "fold")%string then foldAction t player
  else if (action =? "bet")%string then
    match amount with
    | None => Throws "Amount required for bet" t
    | Some a =>
        if betRejected t player a
        then Throws "Bet must be at least the big blind" t
        else betAction t player a
    end
  else if (action =? "raise")%string then
    match amount with
    | None => Throws "Amount required for raise" t
    | Some a =>
        if raiseRejected t player a
        then Throws (raiseMessage t) t
        else raiseAction t player a
    end
  else Throws "Invalid action" t.

(** [connectedPlayers.get(playerId)?.name || "Player"] *)
Definition displayName (s : Service) (playerId : string) : string :=
  match map_get playerId (connectedPlayers s) with
  | Some cp => if (name cp =? "")%string then "Player" else name cp
  | None => "Player"
  end.

Definition autoFoldNotice (s : Service) (playerId error : string) : ServerMessage :=
  MsgNotification
    (displayName s playerId ++ " auto-folded due to invalid action: " ++ error)%string.

(** The body of the outer [try] (lines 116-174). *)
Definition attemptAction (playerId action : string) (amount : option float)
    : M unit :=
  s <- get ;;
  match findPlayer (table s) playerId with
  | None => throw "Player not found"
  | Some player =>
      if negb (isCurrentActor (table s) playerId) then throw "Not your turn"
      else
        callEngine (fun t => performAction t player action amount) ;;
        broadcastGameState ;;
        checkHandOver
  end.

(** The body of the inner [try] (lines 184-202). *)
Definition autoFold (playerId error : string) : M unit :=
  s <- get ;;
  match findPlayer (table s) playerId with
  | Some player =>
      if isCurrentActor (table s) playerId then
        callEngine (fun t => foldAction t player) ;;
        s' <- get ;;
        broadcast (autoFoldNotice s' playerId error) ;;
        broadcastGameState ;;
        checkHandOver
      else ret tt
  | None => ret tt
  end.

(** [handlePlayerAction] (lines 110-207). *)
Definition handlePlayerAction (playerId action : string) (amount : option float)
    : M unit :=
  tryCatch
    (attemptAction playerId action amount)
    (fun error =>
       s <- get ;;
       sendError (option_map socket (map_get playerId (connectedPlayers s))) error ;;
       tryCatch (autoFold playerId error) (fun _ => ret tt)).

Definition startFailed : string :=
  "Failed to start new hand. Make sure there are enough players.".

(** [startNewHand] (lines 209-220). *)
Definition startNewHand : M unit :=
  tryCatch
    (callEngine dealCards ;; broadcastGameState)
    (fun _ => broadcast (MsgError startFailed)).

Definition resetNotice : string :=
  "Game has been reset. All players must rejoin.".

(** [restartGame] (lines 222-237). *)
Definition restartGame : M unit :=
  modify (withTable (newTable 1000 5 10)) ;;
  modify (withRegistry []) ;;
  broadcast (MsgGameReset resetNotice) ;;
  broadcastGameState.

(** A parsed inbound message, by its [type], with its fields at the
    types the handlers declare for them ([buyIn: number],
    [amount?: number]). *)
Inductive ClientMessage :=
| Join (playerId nm : string) (buyIn : float)
| Action (playerId action : string) (amount : option float)
| StartGame
| Restart
| Other.

(** [handleMessage] (lines 42-68). *)
Definition handleMessage (sock : WebSocket) (message : ClientMessage) : M unit :=
  match message with
  | Join playerId nm buyIn => handlePlayerJoin sock playerId nm buyIn
  | Action playerId action amount => handlePlayerAction playerId action amount
  | StartGame => startNewHand
  | Restart => restartGame
  | Other => sendError (Some sock) "Unknown message type"
  end.

(** The ["message"] listener of [handleConnection] (lines 22-29); [None]
    is a text that [JSON.parse] refuses. *)
Definition onMessage (sock : WebSocket) (parsed : option ClientMessage) : M unit :=
  tryCatch
    (match parsed with
     | Some message => handleMessage sock message
     | None => throw "Unexpected token"
     end)
    (fun _ => sendError (Some sock) "Invalid message format").

(** The ["close"] listener (lines 31-39): the first registry entry on this
    socket leaves. *)
Definition onClose (sock : WebSocket) : M unit :=
  s <- get ;;
  match find (fun entry => (socket (snd entry) =? sock)%nat) (connectedPlayers s) with
  | Some entry => handlePlayerLeave (fst entry)
  | None => ret tt
  end.

End PokerGameService.

(** ** A reference engine *)

(** Modelled from the spec: the engine package [@chevtek/poker-engine],
    imported on line 1 of the service, is not among the sources.
    [SpecEngine] follows sections 4.3, 4.4 and 4.6 of the specification
    for seating, the blinds, the legality of the five betting actions
    within one street and the fold-out payout.  It deals from an
    unshuffled deck and does not close a street or run a showdown, which
    need the hand evaluator.  It serves to run the handlers on concrete
    tables and to settle the two statements that rest on the engine's
    rules, the automatic fold and the raise rule; every statement about
    the service alone is proved for an arbitrary engine. *)
Module SpecEngine.

Definition seats : nat := 9.

Definition emptyTable (minBuyIn sb bb : Z) : Table :=
  mkTable minBuyIn sb bb (repeat None seats) None [] [] None None None None [] None.

Definition withPlayers (ps : list (option Player)) (t : Table) : Table :=
  mkTable (buyIn t) (smallBlind t) (bigBlind t) ps (currentActor t)
          (communityCards t) (pots t) (currentBet t) (currentRound t)
          (lastRaise t) (winners t) (deck t) (dealerPosition t).

Definition withActor (a : option Player) (t : Table) : Table :=
  mkTable (buyIn t) (smallBlind t) (bigBlind t) (players t) a
          (communityCards t) (pots t) (currentBet t) (currentRound t)
          (lastRaise t) (winners t) (deck t) (dealerPosition t).

Definition withPots (ps : list Pot) (t : Table) : Table :=
  mkTable (buyIn t) (smallBlind t) (bigBlind t) (players t) (currentActor t)
          (communityCards t) ps (currentBet t) (currentRound t)
          (lastRaise t) (winners t) (deck t) (dealerPosition t).

Definition withBetting (cb lr : option float) (t : Table) : Table :=
  mkTable (buyIn t) (smallBlind t) (bigBlind t) (players t) (currentActor t)
          (communityCards t) (pots t) cb (currentRound t)
          lr (winners t) (deck t) (dealerPosition t).

Definition withRound (r : option BettingRound) (ws : option (list Player))
    (t : Table) : Table :=
  mkTable (buyIn t) (smallBlind t) (bigBlind t) (players t) (currentActor t)
          (communityCards t) (pots t) (currentBet t) r
          (lastRaise t) ws (deck t) (dealerPosition t).

Definition occupied (seat : option Player) : bool :=
  match seat with Some _ => true | None => false end.

(** The smaller of two amounts. *)
Definition least (x y : float) : float := if (x <? y)%float then x else y.

(** The seated players, in seat order. *)
Fixpoint seatedPlayers (ps : list (option Player)) : list Player :=
  match ps with
  | [] => []
  | Some p :: r => p :: seatedPlayers r
  | None :: r => seatedPlayers r
  end.

(** Seats the player on the first empty seat. *)
Fixpoint placeAt (p : Player) (ps : list (option Player)) : list (option Player) :=
  match ps with
  | [] => []
  | None :: r => Some p :: r
  | Some q :: r => Some q :: placeAt p r
  end.

Definition sit (t : Table) (playerId : string) (chips : float) : Outcome :=
  if existsb (hasId playerId) (players t)
  then Throws "Player already joined this table." t
  else if forallb occupied (players t)
  then Throws "The table is currently full." t
  else if negb (ofZ (buyIn t) <=? chips)%float
  then Throws "Your buy-in must be at least the minimum buy-in." t
  else Returns (withPlayers (placeAt (mkPlayer playerId chips 0 false None) (players t)) t).

Definition vacate (playerId : string) (seat : option Player) : option Player :=
  if hasId playerId seat then None else seat.

Definition stand (t : Table) (p : Player) : Outcome :=
  Returns (withPlayers (map (vacate (id p)) (players t)) t).

(** Applies [f] to the seated player with this id. *)
Definition onSeat (playerId : string) (f : Player -> Player)
    (seat : option Player) : option Player :=
  match seat with
  | Some p => if (id p =? playerId)%string then Some (f p) else Some p
  | None => None
  end.

Definition updatePlayer (playerId : string) (f : Player -> Player) (t : Table) : Table :=
  withPlayers (map (onSeat playerId f) (players t)) t.

(** Moves [chips] (at most the stack) from the stack to the bet. *)
Definition pay (chips : float) (p : Player) : Player :=
  let c := least chips (stackSize p) in
  mkPlayer (id p) (stackSize p - c) (bet p + c) (folded p) (holeCards p).

Definition giveCards (cs : list Card) (p : Player) : Player :=
  mkPlayer (id p) (stackSize p) (bet p) (folded p) (Some cs).

Definition markFolded (p : Player) : Player :=
  mkPlayer (id p) (stackSize p) (bet p) true (holeCards p).

Definition award (chips : float) (p : Player) : Player :=
  mkPlayer (id p) (stackSize p + chips) 0 (folded p) (holeCards p).

Definition canAct (p : Player) : bool := negb (folded p) && (0 <? stackSize p)%float.

(** The seated players after the one with this id, then those before it. *)
Fixpoint rotateAfter (playerId : string) (before ps : list Player) : list Player :=
  match ps with
  | [] => rev before
  | p :: r =>
      if (id p =? playerId)%string then r ++ rev before ++ [p]
      else rotateAfter playerId (p :: before) r
  end.

(** Skips folded and all-in seats when passing the turn. *)
Definition nextActor (t : Table) (playerId : string) : option Player :=
  find canAct (rotateAfter playerId [] (seatedPlayers (players t))).

Definition passTurn (playerId : string) (t : Table) : Table :=
  withActor (nextActor t playerId) t.

Definition addToPot (chips : float) (t : Table) : Table :=
  match pots t with
  | [] => withPots [mkPot chips (seatedPlayers (players t)) None] t
  | p :: r => withPots (mkPot (amount p + chips) (eligiblePlayers p) (potWinners p) :: r) t
  end.

Definition ranks : list string :=
  ["2"; "3"; "4"; "5"; "6"; "7"; "8"; "9"; "T"; "J"; "Q"; "K"; "A"].

Definition fullDeck : list Card :=
  flat_map (fun s => map (fun r => mkCard r s) ranks) ["c"; "d"; "h"; "s"].

(** Two hole cards per seated player, in seat order. *)
Fixpoint dealHoles (cards : list Card) (ps : list (option Player))
    : list (option Player) :=
  match ps with
  | [] => []
  | None :: r => None :: dealHoles cards r
  | Some p :: r =>
      Some (giveCards (firstn 2 cards) p) :: dealHoles (skipn 2 cards) r
  end.

(** Blinds from the first two seated players; the first seat after the big
    blind acts, which heads-up is the small blind. *)
Definition deal (t : Table) : Outcome :=
  match currentRound t with
  | Some _ => Throws "There is already an active hand!" t
  | None =>
      if (seatedWithChips t <? 2)%nat
      then Throws "Not enough players to start." t
      else
        match seatedPlayers (players t) with
        | sb :: bb :: _ =>
            let t1 := withPlayers (dealHoles fullDeck (players t)) t in
            let t2 := updatePlayer (id sb) (pay (ofZ (smallBlind t))) t1 in
            let t3 := updatePlayer (id bb) (pay (ofZ (bigBlind t))) t2 in
            let posted := (least (ofZ (smallBlind t)) (stackSize sb)
                           + least (ofZ (bigBlind t)) (stackSize bb))%float in
            let t4 := withPots [mkPot posted (seatedPlayers (players t3)) None] t3 in
            let t5 := withBetting (Some (ofZ (bigBlind t))) None t4 in
            let t6 := withRound (Some PRE_FLOP) None t5 in
            Returns (passTurn (id bb) t6)
        | _ => Throws "Not enough players to start." t
        end
  end.

Definition outOfTurn : string := "Action invoked on player out of turn!".
Definition illegal : string := "Illegal action.".

(** Folding is legal for the player to move.  When one unfolded player
    remains, the pots go to that player and the hand is over. *)
Definition fold (t : Table) (p : Player) : Outcome :=
  if negb (isCurrentActor t (id p)) then Throws outOfTurn t
  else
    let t1 := updatePlayer (id p) markFolded t in
    match filter (fun q => negb (folded q)) (seatedPlayers (players t1)) with
    | [w] =>
        let t2 := updatePlayer (id w) (award (potTotal t1)) t1 in
        let w' := award (potTotal t1) w in
        let t3 := withPots (map (fun pot => mkPot (amount pot) (eligiblePlayers pot)
                                                  (Some [w'])) (pots t2)) t2 in
        Returns (withActor None (withBetting None None (withRound None (Some [w']) t3)))
    | _ => Returns (passTurn (id p) t1)
    end.

(** A call is legal when the current bet exceeds the player's bet. *)
Definition call (t : Table) (p : Player) : Outcome :=
  if negb (isCurrentActor t (id p)) then Throws outOfTurn t
  else if negb (bet p <? currentBetOrZero t)%float then Throws illegal t
  else
    let owed := least (currentBetOrZero t - bet p) (stackSize p) in
    Returns (passTurn (id p) (addToPot owed (updatePlayer (id p) (pay owed) t))).

Definition check (t : Table) (p : Player) : Outcome :=
  if negb (isCurrentActor t (id p)) then Throws outOfTurn t
  else if (bet p =? currentBetOrZero t)%float then Returns (passTurn (id p) t)
  else Throws illegal t.

(** A bet is legal when nothing has been bet on the street; it is at
    least the big blind, or the whole stack. *)
Definition placeBet (t : Table) (p : Player) (a : float) : Outcome :=
  if negb (isCurrentActor t (id p)) then Throws outOfTurn t
  else if (0 <? currentBetOrZero t)%float then Throws illegal t
  else if negb ((0 <? a)%float && (a <=? stackSize p)%float) then Throws illegal t
  else if negb ((ofZ (bigBlind t) <=? a)%float || (a =? stackSize p)%float)
  then Throws "Bet must be at least the big blind." t
  else
    Returns (passTurn (id p)
      (withBetting (Some a) (Some a) (addToPot a (updatePlayer (id p) (pay a) t)))).

(** A raise is legal when something has been bet.  The increase over the
    current bet is at least the last raise of the street, the big blind
    before any raise; a player going all-in and the small blind
    completing to the big blind are exempt. *)
Definition raiseTo (t : Table) (p : Player) (a : float) : Outcome :=
  if negb (isCurrentActor t (id p)) then Throws outOfTurn t
  else if negb (0 <? currentBetOrZero t)%float then Throws illegal t
  else if negb (a - bet p <=? stackSize p)%float then Throws illegal t
  else
    let increase := (a - currentBetOrZero t)%float in
    let allIn := (a - bet p =? stackSize p)%float in
    if negb ((minRaise t <=? increase)%float || allIn || isRaisingToBigBlind t p a)
    then Throws "Raise is below the minimum raise." t
    else
      Returns (passTurn (id p)
        (withBetting (Some a) (Some increase)
           (addToPot (a - bet p) (updatePlayer (id p) (pay (a - bet p)) t)))).

Definition actions (t : Table) (p : Player) : list string :=
  if folded p || negb (0 <? stackSize p)%float then []
  else
    (if (bet p =? currentBetOrZero t)%float then ["check"] else [])
    ++ (if (bet p <? currentBetOrZero t)%float then ["call"] else [])
    ++ (if (0 <? currentBetOrZero t)%float then ["raise"] else ["bet"])
    ++ ["fold"].

#[export] Instance engine : Engine := {
  newTable := emptyTable;
  sitDown := sit;
  standUp := stand;
  dealCards := deal;
  callAction := call;
  checkAction := check;
  foldAction := fold;
  betAction := placeBet;
  raiseAction := raiseTo;
  legalActions := actions
}.

End SpecEngine.

(** ** What a run of the broadcasts sends *)

(** The [privateState] message of one registry entry. *)
Definition privateSendFor {E : Engine} (s : Service) (entry : string * ConnectedPlayer)
    : list Sent :=
  match map_get (fst entry) (connectedPlayers s) with
  | Some player =>
      [mkSent (socket player) (MsgPrivateState (privateState s (fst entry)))]
  | None => []
  end.

(** The [privateState] messages of one [broadcastGameState], in registry
    order. *)
Definition privateSends {E : Engine} (s : Service) : list Sent :=
  flat_map (privateSendFor s) (connectedPlayers s).

Definition gameStateSends {E : Engine} (s : Service) : list Sent :=
  toAll s (MsgGameState (publicState s)) ++ privateSends s.

(** The [handComplete] broadcast that follows when no round is open. *)
Definition handOverSends (s : Service) : list Sent :=
  match currentRound (table s) with
  | None => toAll s (handCompleteMessage (table s))
  | Some _ => []
  end.

(** The state after a join that the engine accepted with table [t']. *)
Definition joined (s : Service) (sock : WebSocket) (playerId nm : string)
    (t' : Table) : Service :=
  withRegistry
    (map_set playerId (mkConnected playerId nm sock) (connectedPlayers s))
    (withTable t' s).

Definition isError (m : Sent) : Prop := exists e, payload m = MsgError e.

Definition isNotification (m : Sent) : Prop :=
  exists text, payload m = MsgNotification text.

(** [p] sits on the first seat, in seat order, whose player has this id:
    the seat that [players.find((p) => p?.id === playerId)] picks. *)
Inductive SeatOf (playerId : string) : list (option Player) -> Player -> Prop :=
| SeatHere (p : Player) (rest : list (option Player)) :
    id p = playerId -> SeatOf playerId (Some p :: rest) p
| SeatPastEmpty (rest : list (option Player)) (p : Player) :
    SeatOf playerId rest p -> SeatOf playerId (None :: rest) p
| SeatPastOther (q : Player) (rest : list (option Player)) (p : Player) :
    id q <> playerId -> SeatOf playerId rest p ->
    SeatOf playerId (Some q :: rest) p.

(** No seat holds a player with this id. *)
Definition Unseated (playerId : string) (seats : list (option Player)) : Prop :=
  forall p, In (Some p) seats -> id p <> playerId.

(** Every open client of the server gets [message] among [out]. *)
Definition reachesAllOpen (s : Service) (message : ServerMessage)
    (out : list Sent) : Prop :=
  forall c, In c (wss s) -> readyState c = OPEN ->
    In (mkSent (clientSocket c) message) out.

(** What the private message for [playerId] must hold: the hole cards
    and the stack of the first seat with that id (no cards and [0] when
    the id has no seat), the engine's legal actions of the current actor
    when the current actor has that id and none otherwise, and as minimum
    raise the last raise, or the big blind when there is none. *)
Definition ownView {E : Engine} (s : Service) (playerId : string)
    (pv : PrivateState) : Prop :=
  (forall p, SeatOf playerId (players (table s)) p ->
     pv_holeCards pv = holeCards p /\ pv_maxBet pv = stackSize p) /\
  (Unseated playerId (players (table s)) ->
     pv_holeCards pv = None /\ pv_maxBet pv = 0%float) /\
  (forall actor, currentActor (table s) = Some actor -> id actor = playerId ->
     pv_availableActions pv = legalActions (table s) actor) /\
  ((forall actor, currentActor (table s) = Some actor -> id actor <> playerId) ->
     pv_availableActions pv = []) /\
  pv_minRaise pv
  = match lastRaise (table s) with
    | Some r => r
    | None => ofZ (bigBlind (table s))
    end.

(** One registry entry and the private message sent for it. *)
Definition privatelyServed {E : Engine} (s : Service)
    (entry : string * ConnectedPlayer) (m : Sent) : Prop :=
  exists cp pv,
    map_get (fst entry) (connectedPlayers s) = Some cp /\
    recipient m = socket cp /\
    payload m = MsgPrivateState pv /\
    ownView s (fst entry) pv.

(** The server handling a sequence of parsed messages, one at a time. *)
Fixpoint deliver {E : Engine} (inbox : list (WebSocket * ClientMessage))
    (s : Service) : Service :=
  match inbox with
  | [] => s
  | m :: r => deliver r (final (onMessage (fst m) (Some (snd m)) s))
  end.

(** An action message whose sender is not the player to move in [s]. *)
Definition outOfTurn (s : Service) (m : WebSocket * ClientMessage) : Prop :=
  match snd m with
  | Action playerId _ _ =>
      isCurrentActor (table s) playerId = false
      \/ findPlayer (table s) playerId = None
  | _ => False
  end.

(** ** What statements ask of the engine *)

(** A call that throws leaves the table as it found it. *)
Definition atomic (op : Table -> Outcome) : Prop :=
  forall t message t', op t = Throws message t' -> t' = t.

(** The five betting actions reject without touching the table. *)
Definition rejections_atomic (E : Engine) : Prop :=
  forall p,
    atomic (fun t => callAction t p) /\
    atomic (fun t => checkAction t p) /\
    atomic (fun t => foldAction t p) /\
    (forall a, atomic (fun t => betAction t p a)) /\
    (forall a, atomic (fun t => raiseAction t p a)).

(** Section 4.5: folding is always legal for the player to move. *)
Definition fold_always_legal (E : Engine) : Prop :=
  forall t p,
    findPlayer t (id p) = Some p ->
    isCurrentActor t (id p) = true ->
    exists t', foldAction t p = Returns t'.

(** Section 4.4: [startHand] fails when fewer than two seated players
    have chips, and a failed start changes nothing. *)
Definition deal_needs_two (E : Engine) : Prop :=
  forall t, (seatedWithChips t < 2)%nat ->
    exists message, dealCards t = Throws message t.

(** Section 4.6: a player who sits down is seated with the chips handed
    to [sitDown]. *)
Definition sitDown_seats_with (E : Engine) : Prop :=
  forall t playerId chips t',
    sitDown t playerId chips = Returns t' ->
    exists p, findPlayer t' playerId = Some p /\ stackSize p = chips.

(** ** Tables up to hole cards *)

Definition hideCards (p : Player) : Player :=
  mkPlayer (id p) (stackSize p) (bet p) (folded p) None.

Definition hidePot (pot : Pot) : Pot :=
  mkPot (amount pot) (map hideCards (eligiblePlayers pot))
        (option_map (map hideCards) (potWinners pot)).

(** The table with every player's hole cards blanked, wherever the
    player object occurs. *)
Definition hideTable (t : Table) : Table :=
  mkTable (buyIn t) (smallBlind t) (bigBlind t)
          (map (option_map hideCards) (players t))
          (option_map hideCards (currentActor t))
          (communityCards t) (map hidePot (pots t)) (currentBet t)
          (currentRound t) (lastRaise t)
          (option_map (map hideCards) (winners t))
          (deck t) (dealerPosition t).

(** Two tables that differ at most in players' hole cards. *)
Definition sameUpToHoleCards (t1 t2 : Table) : Prop :=
  hideTable t1 = hideTable t2.

(** ** The raise rule *)

(** Section 4.3 in the specification's words: the increase over the
    current bet is at least the last raise of the street (the big blind
    when there was none), or the player goes all-in with the entire
    remaining stack, or it is the pre-flop completion of the small blind
    to exactly the big blind. *)
Definition raiseAllowed (t : Table) (player : Player) (a : float) : Prop :=
  (match lastRaise t with Some r => r | None => ofZ (bigBlind t) end
   <=? a - match currentBet t with
           | Some b => if (b =? 0) || PrimFloat.is_nan b then 0 else b
           | None => 0
           end)%float = true
  \/ (a - bet player =? stackSize player)%float = true
  \/ (communityCards t = []
      /\ (bet player =? ofZ (smallBlind t))%float = true
      /\ (a =? ofZ (bigBlind t))%float = true).

(** ** Whole-chip shares *)

(** Section 4.4 in the specification's words: an even split in whole
    chips, the remainder going to the earliest-acting winner (position
    [0] among the [n] winners). *)
Definition wholeChipShare (chips : Z) (n position : nat) : Z :=
  chips / Z.of_nat n + (if (position =? 0)%nat then chips mod Z.of_nat n else 0).

(** The table [t] with one more pot after its pots. *)
Definition withLastPot (pot : Pot) (t : Table) : Table :=
  mkTable (buyIn t) (smallBlind t) (bigBlind t) (players t) (currentActor t)
          (communityCards t) (pots t ++ [pot]) (currentBet t) (currentRound t)
          (lastRaise t) (winners t) (deck t) (dealerPosition t).

(** ** Concrete tables *)

Module Demo.

Import SpecEngine.

Definition server : list Client :=
  [mkClient 1%nat OPEN; mkClient 2%nat OPEN; mkClient 3%nat CLOSED].

Definition fresh : Service := initialService server.

Definition feed (s : Service) (m : WebSocket * ClientMessage) : Service :=
  final (onMessage (fst m) (Some (snd m)) s).

(** Alice and Bob have joined. *)
Definition seatedPair : Service :=
  fold_left feed
    [(1%nat, Join "alice" "Alice" 50); (2%nat, Join "bob" "Bob" 7000)] fresh.

(** A hand has been dealt: Alice is the small blind and acts first. *)
Definition preflop : Service := feed seatedPair (1%nat, StartGame).

Definition alice : Player :=
  mkPlayer "alice" 995 5 false (Some [mkCard "2" "c"; mkCard "3" "c"]).

Definition aliceEntry : ConnectedPlayer := mkConnected "alice" "Alice" 1%nat.

(** The same hand with other cards in Alice's hand. *)
Definition preflopOtherCards : Service :=
  withTable
    (updatePlayer "alice" (giveCards [mkCard "A" "s"; mkCard "A" "h"])
                  (table preflop))
    preflop.

Definition flop : list Card := [mkCard "7" "d"; mkCard "9" "s"; mkCard "K" "h"].

(** On the flop Bob has bet 10 and Alice has raised to 60, a raise of
    50; Bob is to act. *)
Definition bobFacingRaise : Player :=
  mkPlayer "bob" 980 10 false (Some [mkCard "4" "c"; mkCard "5" "c"]).

Definition aliceRaised : Player :=
  mkPlayer "alice" 930 60 false (Some [mkCard "2" "c"; mkCard "3" "c"]).

Definition reraised : Table :=
  mkTable 1000 5 10
          [Some aliceRaised; Some bobFacingRaise; None; None; None; None; None;
           None; None]
          (Some bobFacingRaise) flop
          [mkPot 90 [aliceRaised; bobFacingRaise] None]
          (Some 60%float) (Some FLOP) (Some 50%float) None [] None.

(** A showdown that Bob and Carol tie: the small blind folded 5 chips
    into a pot of 25.  Stacks, which the announcement does not read, are
    those before the award. *)
Definition bobShown : Player :=
  mkPlayer "bob" 990 0 false (Some [mkCard "A" "c"; mkCard "K" "d"]).

Definition carolShown : Player :=
  mkPlayer "carol" 990 0 false (Some [mkCard "A" "d"; mkCard "K" "c"]).

Definition aliceOut : Player :=
  mkPlayer "alice" 995 0 true (Some [mkCard "2" "c"; mkCard "7" "h"]).

Definition splitPot : Table :=
  mkTable 1000 5 10
          [Some aliceOut; Some bobShown; Some carolShown; None; None; None;
           None; None; None]
          None
          (flop ++ [mkCard "2" "s"; mkCard "3" "s"])
          [mkPot 25 [bobShown; carolShown] (Some [bobShown; carolShown])]
          None None None (Some [bobShown; carolShown]) [] None.

(** The same showdown with Alice in the tie and a pot of 35. *)
Definition aliceShown : Player :=
  mkPlayer "alice" 990 0 false (Some [mkCard "A" "h"; mkCard "K" "s"]).

Definition threeWayPot : Table :=
  mkTable 1000 5 10
          [Some aliceShown; Some bobShown; Some carolShown; None; None; None;
           None; None; None]
          None
          (flop ++ [mkCard "2" "s"; mkCard "3" "s"])
          [mkPot 35 [aliceShown; bobShown; carolShown]
                 (Some [aliceShown; bobShown; carolShown])]
          None None None (Some [aliceShown; bobShown; carolShown]) [] None.

End Demo.

(** ** Invariants of a run *)

(** Started in a state that satisfies [I], the handler ends in one that
    does, normally or not, and every message it sends satisfies [O]. *)
Definition respectsAt {A} (I : Service -> Prop) (O : Sent -> Prop) (m : M A)
    (s : Service) : Prop :=
  I s -> I (final (m s)) /\ Forall O (sent (m s)).

Definition respects {A} (I : Service -> Prop) (O : Sent -> Prop) (m : M A) : Prop :=
  forall s, respectsAt I O m s.

(** The sockets the server may address while it handles a message that
    [sock] sent in state [s]: the sender, the open clients of the server
    and the sockets of the registry. *)
Definition knownSocket (s : Service) (sock k : WebSocket) : Prop :=
  k = sock \/
  In k (map clientSocket (filter isOpen (wss s))) \/
  exists playerId cp,
    map_get playerId (connectedPlayers s) = Some cp /\ socket cp = k.

(** A later state whose client list is that of [s] and whose registry
    holds known sockets only. *)
Definition withinKnown (s : Service) (sock : WebSocket) (s' : Service) : Prop :=
  wss s' = wss s /\
  forall playerId cp,
    map_get playerId (connectedPlayers s') = Some cp ->
    knownSocket s sock (socket cp).

Definition toKnown (s : Service) (sock : WebSocket) (x : Sent) : Prop :=
  knownSocket s sock (recipient x).

(** A later state with the registry and the client list of [s]. *)
Definition sameSessions (s s' : Service) : Prop :=
  connectedPlayers s' = connectedPlayers s /\ wss s' = wss s.

(** ** Seats of the public state *)

(** The ids of the seated players, in seat order. *)
Definition seatIds (t : Table) : list string :=
  flat_map (fun seat => match seat with Some p => [id p] | None => [] end)
           (players t).

(** A seat of the public state that carries the whose-turn flag. *)
Definition flagged (seat : option PublicPlayer) : bool :=
  match seat with
  | Some p => pub_isCurrentActor p
  | None => false
  end.

(** ** More concrete states *)

(** The reference engine with a [foldAction] that always throws: an
    engine on which the automatic fold itself is refused. *)
Module FoldlessEngine.

#[export] Instance engine : Engine := {
  newTable := SpecEngine.emptyTable;
  sitDown := SpecEngine.sit;
  standUp := SpecEngine.stand;
  dealCards := SpecEngine.deal;
  callAction := SpecEngine.call;
  checkAction := SpecEngine.check;
  foldAction := fun t _ => Throws SpecEngine.illegal t;
  betAction := SpecEngine.placeBet;
  raiseAction := SpecEngine.raiseTo;
  legalActions := SpecEngine.actions
}.

End FoldlessEngine.

(** The reference engine with a [dealCards] that first clears what the
    previous hand left on the table (community cards, pots, winners) and
    only then counts the players: an engine whose refusal to deal is not
    without effect. *)
Module TidyingEngine.

Definition cleared (t : Table) : Table :=
  mkTable (buyIn t) (smallBlind t) (bigBlind t) (players t) None [] []
          None None None None (deck t) (dealerPosition t).

Definition deal (t : Table) : Outcome :=
  match currentRound t with
  | Some _ => Throws "There is already an active hand!" t
  | None => SpecEngine.deal (cleared t)
  end.

#[export] Instance engine : Engine := {
  newTable := SpecEngine.emptyTable;
  sitDown := SpecEngine.sit;
  standUp := SpecEngine.stand;
  dealCards := deal;
  callAction := SpecEngine.call;
  checkAction := SpecEngine.check;
  foldAction := SpecEngine.fold;
  betAction := SpecEngine.placeBet;
  raiseAction := SpecEngine.raiseTo;
  legalActions := SpecEngine.actions
}.

End TidyingEngine.

Module Scenes.

Import SpecEngine.

(** A hand is over that left Bob without chips: Alice holds all 2000
    and the board and the winners of that hand are still on the table. *)
Definition aliceWonAll : Player :=
  mkPlayer "alice" 2000 0 false (Some [mkCard "A" "s"; mkCard "A" "h"]).

Definition bobBroke : Player :=
  mkPlayer "bob" 0 0 false (Some [mkCard "4" "c"; mkCard "5" "c"]).

Definition afterBust : Service :=
  withTable
    (mkTable 1000 5 10
             [Some aliceWonAll; Some bobBroke; None; None; None; None; None;
              None; None]
             None
             (Demo.flop ++ [mkCard "2" "s"; mkCard "3" "s"])
             [mkPot 2000 [aliceWonAll; bobBroke] (Some [aliceWonAll])]
             None None None (Some [aliceWonAll]) [] None)
    Demo.seatedPair.

(** One connection has joined twice, as Alice and as Bob. *)
Definition sharedSocket : Service :=
  fold_left Demo.feed
    [(1%nat, Join "alice" "Alice" 0); (1%nat, Join "bob" "Bob" 0)] Demo.fresh.

(** The dealt hand with nobody in the registry. *)
Definition unregisteredActor : Service := withRegistry [] Demo.preflop.

(** Alice and Bob are registered but the table has no seated player. *)
Definition ghosts : Service :=
  withRegistry (connectedPlayers Demo.seatedPair) Demo.fresh.

End Scenes.

(** * Properties *)

(** ** The handler monad *)

Lemma bind_ret_l {A B} (a : A) (k : A -> M B) (s : Service) :
  bind (ret a) k s = k a s.
Proof. unfold bind, ret. now destruct (k a s) as [[r s2] o2]. Qed.

Lemma bind_ret_r {A} (m : M A) (s : Service) : bind m ret s = m s.
Proof.
  unfold bind, ret. destruct (m s) as [[[a|e] s1] o1]; [|reflexivity].
  now rewrite app_nil_r.
Qed.

Lemma bind_assoc {A B C} (m : M A) (k : A -> M B) (h : B -> M C) (s : Service) :
  bind (bind m k) h s = bind m (fun a => bind (k a) h) s.
Proof.
  unfold bind. destruct (m s) as [[[a|e] s1] o1]; [|reflexivity].
  destruct (k a s1) as [[[b|e] s2] o2]; [|reflexivity].
  destruct (h b s2) as [[r s3] o3]. now rewrite app_assoc.
Qed.

(** A handler that completes normally is not caught. *)
Lemma tryCatch_normal {A} (m : M A) (h : string -> M A) (s s1 : Service)
    (a : A) (o : list Sent) :
  m s = (Normal a, s1, o) -> tryCatch m h s = (Normal a, s1, o).
Proof. intros H. unfold tryCatch. now rewrite H. Qed.

(** ** Running the broadcasts *)

Lemma withTable_same (s : Service) : withTable (table s) s = s.
Proof. destruct s; reflexivity. Qed.

Lemma forEach_sends {A} (l : list A) (f : A -> M unit) (g : A -> list Sent)
    (s : Service) :
  (forall x, f x s = (Normal tt, s, g x)) ->
  forEach l f s = (Normal tt, s, flat_map g l).
Proof.
  intros Hf. induction l as [|x r IH]; [reflexivity|].
  cbn [forEach flat_map]. unfold bind. now rewrite Hf, IH.
Qed.

Section Runs.

Context {E : Engine}.

Lemma sendToPlayer_run (s : Service) (entry : string * ConnectedPlayer) :
  (s' <- get ;;
   sendToPlayer (fst entry) (MsgPrivateState (privateState s' (fst entry)))) s
  = (Normal tt, s, privateSendFor s entry).
Proof.
  unfold bind, get, gets, sendToPlayer, privateSendFor, bind, get, gets.
  cbn. destruct (map_get (fst entry) (connectedPlayers s)); reflexivity.
Qed.

Lemma broadcastGameState_run (s : Service) :
  broadcastGameState s = (Normal tt, s, gameStateSends s).
Proof.
  unfold broadcastGameState, bind at 1. cbn [get gets].
  unfold bind at 1. unfold broadcast at 1, bind at 1. cbn [get gets emit].
  rewrite (forEach_sends _ _ (privateSendFor s)) by apply sendToPlayer_run.
  reflexivity.
Qed.

Lemma checkHandOver_run (s : Service) :
  checkHandOver s = (Normal tt, s, handOverSends s).
Proof.
  unfold checkHandOver, handOverSends, bind, get, gets.
  destruct (currentRound (table s)); [reflexivity|].
  unfold handleHandComplete, broadcast, bind, get, gets, emit.
  reflexivity.
Qed.

(** [broadcastGameState] followed by the hand-over check. *)
Lemma announce_run (s : Service) :
  (broadcastGameState ;; checkHandOver) s
  = (Normal tt, s, gameStateSends s ++ handOverSends s).
Proof.
  unfold bind. now rewrite broadcastGameState_run, checkHandOver_run.
Qed.

End Runs.

(** ** The reference engine keeps the engine contracts *)

Module SpecEngineFacts.

Import SpecEngine.

Ltac rejected :=
  repeat match goal with
  | H : (if ?c then _ else _) = Throws _ _ |- _ => destruct c
  | H : match ?x with _ => _ end = Throws _ _ |- _ => destruct x
  | H : Throws _ _ = Throws _ _ |- _ => now inversion H
  | H : Returns _ = Throws _ _ |- _ => discriminate H
  end.

Lemma rejections_are_atomic : rejections_atomic engine.
Proof.
  intros p. unfold atomic. repeat split.
  - intros t message t' H. cbn in H. unfold call in H. rejected.
  - intros t message t' H. cbn in H. unfold check in H. rejected.
  - intros t message t' H. cbn in H. unfold fold in H. rejected.
  - intros a t message t' H. cbn in H. unfold placeBet in H. rejected.
  - intros a t message t' H. cbn in H. unfold raiseTo in H. rejected.
Qed.

Lemma fold_is_always_legal : fold_always_legal engine.
Proof.
  intros t p _ Hturn. cbn. unfold fold. rewrite Hturn. cbn [negb].
  destruct (filter _ _) as [|w [|w' r]]; eauto.
Qed.

Lemma deal_needs_two_players : deal_needs_two engine.
Proof.
  intros t Hfew. cbn. unfold deal.
  destruct (currentRound t); [eauto|].
  apply Nat.ltb_lt in Hfew. rewrite Hfew. eauto.
Qed.

Lemma find_placeAt (p : Player) (ps : list (option Player)) :
  existsb (hasId (id p)) ps = false ->
  forallb occupied ps = false ->
  find (hasId (id p)) (placeAt p ps) = Some (Some p).
Proof.
  induction ps as [|[q|] r IH]; cbn; intros Hnew Hroom.
  - discriminate.
  - apply orb_false_iff in Hnew as [Hq Hr]. rewrite Hq. now apply IH.
  - now rewrite String.eqb_refl.
Qed.

Lemma sit_seats_with : sitDown_seats_with engine.
Proof.
  intros t playerId chips t' H. cbn in H. unfold sit in H.
  destruct (existsb _ _) eqn:Hnew; [discriminate|].
  destruct (forallb _ _) eqn:Hroom; [discriminate|].
  destruct (negb _); [discriminate|].
  inversion H; subst t'; clear H.
  exists (mkPlayer playerId chips 0 false None). split; [|reflexivity].
  unfold findPlayer. cbn [players withPlayers].
  now rewrite (find_placeAt (mkPlayer playerId chips 0 false None)).
Qed.

End SpecEngineFacts.

(** ** Actions out of turn *)

Section OutOfTurn.

Context {E : Engine}.

Variables (s : Service) (playerId action : string) (amount : option float).

Hypothesis Hnot :
  isCurrentActor (table s) playerId = false \/ findPlayer (table s) playerId = None.

(** The outer [try] throws before any engine call. *)
Lemma attemptAction_refused :
  exists e, attemptAction playerId action amount s = (Abrupt e, s, []).
Proof.
  unfold attemptAction, bind, get, gets.
  destruct (findPlayer (table s) playerId) as [p|] eqn:Hp.
  - destruct Hnot as [Hturn|Hnone]; [|discriminate].
    rewrite Hturn. cbn. eauto.
  - cbn. eauto.
Qed.

(** The guard of the inner [try] is false. *)
Lemma autoFold_skipped (e : string) :
  autoFold playerId e s = (Normal tt, s, []).
Proof.
  unfold autoFold, bind, get, gets.
  destruct (findPlayer (table s) playerId) as [p|] eqn:Hp; [|reflexivity].
  destruct Hnot as [Hturn|Hnone]; [|discriminate].
  now rewrite Hturn.
Qed.

(** The handler either sends one error to the registered socket or, for
    an unregistered id, dies on the missing socket. *)
Lemma handlePlayerAction_refused :
  exists e,
    handlePlayerAction playerId action amount s =
      match map_get playerId (connectedPlayers s) with
      | Some cp => (Normal tt, s, [mkSent (socket cp) (MsgError e)])
      | None => (Abrupt undefinedSend, s, [])
      end.
Proof.
  destruct attemptAction_refused as [e He]. exists e.
  unfold handlePlayerAction, tryCatch at 1. rewrite He.
  unfold bind at 1. cbn [get gets]. unfold bind at 1.
  destruct (map_get playerId (connectedPlayers s)) as [cp|]; cbn.
  - unfold tryCatch. now rewrite autoFold_skipped.
  - reflexivity.
Qed.

End OutOfTurn.

(** C2.  An action message from a player who is not the current actor,
    or whose id is not seated, leaves the whole service state as it was:
    table (so nobody is folded and the turn stays where it is) and
    registry.  All the server sends in reply is an error. *)
Theorem out_of_turn_action_changes_nothing {E : Engine} (s : Service)
    (sock : WebSocket) (playerId action : string) (amount : option float)
    (Hnot : isCurrentActor (table s) playerId = false
            \/ findPlayer (table s) playerId = None) :
  final (handlePlayerAction playerId action amount s) = s /\
  Forall isError (sent (handlePlayerAction playerId action amount s)) /\
  final (onMessage sock (Some (Action playerId action amount)) s) = s /\
  Forall isError (sent (onMessage sock (Some (Action playerId action amount)) s)).
Proof.
  destruct (handlePlayerAction_refused s playerId action amount Hnot) as [e He].
  unfold onMessage. cbn [handleMessage]. unfold tryCatch. rewrite He.
  destruct (map_get playerId (connectedPlayers s)) as [cp|]; cbn.
  - repeat split; try (constructor; [now exists e | constructor]).
  - repeat split; try constructor.
    + now exists "Invalid message format".
    + constructor.
Qed.

(** Bob sends [fold] while it is Alice's turn. *)
Lemma out_of_turn_action_changes_nothing_witness :
  isCurrentActor (table Demo.preflop) "bob" = false /\
  final (handlePlayerAction (E := SpecEngine.engine) "bob" "fold" None Demo.preflop)
  = Demo.preflop.
Proof.
  split; [reflexivity|].
  apply (out_of_turn_action_changes_nothing (E := SpecEngine.engine)
           Demo.preflop 2%nat "bob" "fold" None).
  left. reflexivity.
Defined.

(** X17.  However many actions arrive out of turn, from seated players
    or unknown ids, the service state stays as it is: the table waits for
    the player to move. *)
Lemma out_of_turn_actions_change_nothing {E : Engine}
    (inbox : list (WebSocket * ClientMessage)) (s : Service) :
  Forall (outOfTurn s) inbox -> deliver inbox s = s.
Proof.
  induction inbox as [|[sock m] r IH]; intros Hall; [reflexivity|].
  inversion Hall as [|? ? Hm Hr]; subst. cbn [deliver fst snd].
  unfold outOfTurn in Hm. cbn [snd] in Hm.
  destruct m as [| playerId action amount | | |]; try contradiction.
  destruct (handlePlayerAction_refused s playerId action amount Hm) as [e He].
  assert (final (onMessage sock (Some (Action playerId action amount)) s) = s)
    as ->; [|now apply IH].
  unfold onMessage. cbn [handleMessage]. unfold tryCatch. rewrite He.
  now destruct (map_get playerId (connectedPlayers s)).
Qed.

(** ** Illegal actions by the player to move *)

Lemma findPlayer_id (t : Table) (playerId : string) (p : Player) :
  findPlayer t playerId = Some p -> id p = playerId.
Proof.
  unfold findPlayer. destruct (find _ _) as [seat|] eqn:Hfind; [|discriminate].
  intros ->. apply find_some in Hfind as [_ Hid]. now apply String.eqb_eq.
Qed.

Section ServiceChecks.

Context {E : Engine}.

Variables (t : Table) (player : Player).

(** What the [switch] refuses by itself, before any engine call. *)
Lemma unknown_action_rejected (action : string) (amount : option float) :
  ~ In action ["call"; "check"; "fold"; "bet"; "raise"] ->
  performAction t player action amount = Throws "Invalid action" t.
Proof.
  intros Hnew. unfold performAction.
  repeat match goal with
  | |- context [(action =? ?k)%string] =>
      destruct (String.eqb_spec action k) as [->|_];
      [exfalso; apply Hnew; cbn; tauto|]
  end.
  reflexivity.
Qed.

Lemma missing_amount_rejected :
  performAction t player "bet" None = Throws "Amount required for bet" t /\
  performAction t player "raise" None = Throws "Amount required for raise" t.
Proof. split; reflexivity. Qed.

Lemma undersized_bet_rejected (a : float) :
  (a =? stackSize player)%float = false ->
  (a <? ofZ (bigBlind t))%float = true ->
  performAction t player "bet" (Some a)
  = Throws "Bet must be at least the big blind" t.
Proof.
  intros Hall Hsmall. cbn. unfold betRejected. cbn [isAllIn].
  now rewrite Hall, Hsmall.
Qed.

Lemma undersized_raise_rejected (a : float) :
  raiseRejected t player a = true ->
  performAction t player "raise" (Some a) = Throws (raiseMessage t) t.
Proof. intros H. cbn. now rewrite H. Qed.

(** With an engine that rejects atomically, so does the [switch]. *)
Lemma performAction_atomic (action : string) (amount : option float)
    (reason : string) (t' : Table) :
  rejections_atomic E ->
  performAction t player action amount = Throws reason t' -> t' = t.
Proof.
  intros Hatomic H.
  destruct (Hatomic player) as (Hcall & Hcheck & Hfold & Hbet & Hraise).
  unfold performAction in H.
  repeat match type of H with
  | (if ?c then _ else _) = _ => destruct c
  | match ?x with _ => _ end = _ => destruct x
  end;
  try (now inversion H);
  eauto using Hcall, Hcheck, Hfold.
  - eapply Hbet, H.
  - eapply Hraise, H.
Qed.

End ServiceChecks.

(** An action that the checks and the engine accept is applied and the
    new state is broadcast; no error is sent. *)
Lemma accepted_action_is_applied {E : Engine} (s : Service)
    (playerId action : string) (amount : option float) (player : Player)
    (t' : Table) :
  findPlayer (table s) playerId = Some player ->
  isCurrentActor (table s) playerId = true ->
  performAction (table s) player action amount = Returns t' ->
  handlePlayerAction playerId action amount s =
    (Normal tt, withTable t' s,
     gameStateSends (withTable t' s) ++ handOverSends (withTable t' s)).
Proof.
  intros Hseat Hturn Hdone.
  unfold handlePlayerAction. apply tryCatch_normal.
  unfold attemptAction, bind at 1. cbn [get gets].
  rewrite Hseat, Hturn. cbn [negb].
  unfold bind at 1, callEngine at 1. rewrite Hdone.
  now rewrite announce_run.
Qed.

(** The opening of the scenario of section 8 on the reference engine:
    after the deal the small blind is to act; her call brings her bet to
    10, the pot to 20 and the turn to the big blind. *)
Example small_blind_calls :
  let called :=
    final (handlePlayerAction (E := SpecEngine.engine) "alice" "call" None
                              Demo.preflop) in
  option_map id (currentActor (table Demo.preflop)) = Some "alice" /\
  option_map id (currentActor (table called)) = Some "bob" /\
  option_map bet (findPlayer (table called) "alice") = Some 10%float /\
  potTotal (table called) = 20%float.
Proof. repeat split. Qed.

Lemma findPlayer_SeatOf (t : Table) (playerId : string) (p : Player) :
  SeatOf playerId (players t) p -> findPlayer t playerId = Some p.
Proof.
  unfold findPlayer. induction 1 as [p rest Hid|rest p _ IH|q rest p Hq _ IH];
    cbn [find hasId].
  - apply String.eqb_eq in Hid. now rewrite Hid.
  - exact IH.
  - apply String.eqb_neq in Hq. now rewrite Hq.
Qed.

Lemma findPlayer_Unseated (t : Table) (playerId : string) :
  Unseated playerId (players t) -> findPlayer t playerId = None.
Proof.
  unfold findPlayer, Unseated. induction (players t) as [|[q|] r IH];
    intros Hnone; cbn [find hasId]; [reflexivity| |].
  - assert (id q <> playerId) as Hq by (apply Hnone; now left).
    apply String.eqb_neq in Hq. rewrite Hq. apply IH.
    intros p Hp. apply Hnone. now right.
  - apply IH. intros p Hp. apply Hnone. now right.
Qed.

Lemma SeatOf_findPlayer (t : Table) (playerId : string) (p : Player) :
  findPlayer t playerId = Some p -> SeatOf playerId (players t) p.
Proof.
  unfold findPlayer. induction (players t) as [|[q|] r IH]; cbn [find hasId];
    [discriminate| |].
  - destruct (String.eqb_spec (id q) playerId) as [Hq|Hq].
    + intros H. inversion H; subst q. now apply SeatHere.
    + intros H. apply SeatPastOther; [exact Hq|now apply IH].
  - intros H. apply SeatPastEmpty. now apply IH.
Qed.

Lemma isCurrentActor_spec (t : Table) (playerId : string) :
  isCurrentActor t playerId = true <->
  exists actor, currentActor t = Some actor /\ id actor = playerId.
Proof.
  unfold isCurrentActor. destruct (currentActor t) as [actor|].
  - rewrite String.eqb_eq. split.
    + intros Hid. now exists actor.
    + intros (x & Hx & Hid). now inversion Hx; subst x.
  - split; [discriminate|]. intros (x & Hx & _). discriminate.
Qed.

(** What [broadcast] hands out reaches every open client, and nobody
    else. *)
Lemma toAll_reaches (s : Service) (message : ServerMessage) :
  reachesAllOpen s message (toAll s message).
Proof.
  intros c Hc Hopen. unfold toAll.
  apply (in_map (fun c => mkSent (clientSocket c) message)).
  apply filter_In. split; [exact Hc|]. unfold isOpen. now rewrite Hopen.
Qed.

Lemma toAll_only (s : Service) (message : ServerMessage) (x : Sent) :
  In x (toAll s message) ->
  payload x = message /\
  exists c, In c (wss s) /\ readyState c = OPEN /\ recipient x = clientSocket c.
Proof.
  unfold toAll. intros Hx. apply in_map_iff in Hx as (c & <- & Hc).
  apply filter_In in Hc as [Hc Hopen]. split; [reflexivity|].
  exists c. repeat split; [exact Hc|].
  unfold isOpen in Hopen. now destruct (readyState c).
Qed.

(** The run of a rejected action of the registered player to move, on an
    engine that rejects atomically, when the engine applies the fold. *)
Lemma rejected_action_run {E : Engine} (Hatomic : rejections_atomic E)
    (s : Service) (playerId action : string) (amount : option float)
    (player : Player) (cp : ConnectedPlayer) (reason : string)
    (t' afterFold : Table) :
  findPlayer (table s) playerId = Some player ->
  isCurrentActor (table s) playerId = true ->
  map_get playerId (connectedPlayers s) = Some cp ->
  performAction (table s) player action amount = Throws reason t' ->
  foldAction (table s) player = Returns afterFold ->
  handlePlayerAction playerId action amount s =
    (Normal tt, withTable afterFold s,
     mkSent (socket cp) (MsgError reason)
     :: toAll s (autoFoldNotice s playerId reason)
     ++ gameStateSends (withTable afterFold s)
     ++ handOverSends (withTable afterFold s)).
Proof.
  intros Hseat Hturn Hreg Hrej Hfolded.
  assert (t' = table s) as -> by (eapply performAction_atomic; eauto).
  unfold handlePlayerAction, tryCatch at 1.
  unfold attemptAction at 1, bind at 1. cbn [get gets].
  rewrite Hseat, Hturn. cbn [negb].
  unfold bind at 1, callEngine at 1. rewrite Hrej, withTable_same.
  unfold bind at 1. cbn [get gets]. rewrite Hreg. cbn [option_map].
  unfold bind at 1, sendError at 1, emit at 1.
  unfold tryCatch, autoFold, bind at 1. cbn [get gets].
  rewrite Hseat, Hturn.
  unfold bind at 1, callEngine at 1. rewrite Hfolded.
  unfold bind at 1. cbn [get gets].
  unfold bind at 1, broadcast at 1, bind at 1. cbn [get gets emit].
  rewrite announce_run. reflexivity.
Qed.

(** On the reference engine a fold leaves the folding player's seat
    marked as folded. *)
Lemma find_map_same_id (playerId : string)
    (f : option Player -> option Player) (l : list (option Player)) :
  (forall seat, hasId playerId (f seat) = hasId playerId seat) ->
  find (hasId playerId) (map f l) = option_map f (find (hasId playerId) l).
Proof.
  intros Hf. induction l as [|seat r IH]; [reflexivity|].
  cbn [map find]. rewrite Hf. now destruct (hasId playerId seat).
Qed.

Lemma hasId_onSeat (playerId k : string) (f : Player -> Player)
    (seat : option Player) :
  (forall p, id (f p) = id p) ->
  hasId playerId (SpecEngine.onSeat k f seat) = hasId playerId seat.
Proof.
  intros Hf. destruct seat as [p|]; [|reflexivity]. cbn.
  destruct (id p =? k)%string; cbn; [now rewrite Hf|reflexivity].
Qed.

Lemma findPlayer_updatePlayer (playerId k : string) (f : Player -> Player)
    (t : Table) (p : Player) :
  (forall q, id (f q) = id q) ->
  findPlayer t playerId = Some p ->
  findPlayer (SpecEngine.updatePlayer k f t) playerId
  = Some (if (id p =? k)%string then f p else p).
Proof.
  intros Hf. unfold findPlayer, SpecEngine.updatePlayer.
  cbn [players SpecEngine.withPlayers].
  rewrite (find_map_same_id playerId) by (intros seat; now apply hasId_onSeat).
  destruct (find (hasId playerId) (players t)) as [[q|]|]; try discriminate.
  intros Hq. inversion Hq; subst q. cbn. now destruct (id p =? k)%string.
Qed.

Lemma fold_marks_folded (t : Table) (p : Player) (t' : Table) :
  findPlayer t (id p) = Some p ->
  SpecEngine.fold t p = Returns t' ->
  exists q, findPlayer t' (id p) = Some q /\ folded q = true.
Proof.
  intros Hseat. unfold SpecEngine.fold.
  destruct (negb (isCurrentActor t (id p))); [discriminate|].
  pose proof (findPlayer_updatePlayer (id p) (id p) SpecEngine.markFolded t
                (fun q => eq_refl) Hseat) as Hmarked.
  rewrite String.eqb_refl in Hmarked.
  destruct (filter _ _) as [|w [|w' r]]; intros H; inversion H; subst t'; clear H.
  - exists (SpecEngine.markFolded p). split; [exact Hmarked|reflexivity].
  - pose proof (findPlayer_updatePlayer (id p) (id w)
                  (SpecEngine.award (potTotal (SpecEngine.updatePlayer (id p)
                                                 SpecEngine.markFolded t)))
                  (SpecEngine.updatePlayer (id p) SpecEngine.markFolded t)
                  (fun q => eq_refl) Hmarked) as Hawarded.
    eexists. split; [exact Hawarded|].
    now destruct (id (SpecEngine.markFolded p) =? id w)%string.
  - exists (SpecEngine.markFolded p). split; [exact Hmarked|reflexivity].
Qed.

(** C1.  With the engine as the specification describes it: when the
    seated player whose turn it is, registered with connection [cp],
    sends an action that the service or the engine rejects with [reason]
    (an unknown action, a missing amount, an undersized bet or raise, an
    action the engine refuses), the handler completes normally; the first
    message it sends is [error reason] to that player's socket; after it
    every open client of the server receives the notification that names
    the player and the reason; and in the resulting table the player's
    seat is folded.  The fold is not conditional on anything else and
    does not fail. *)
Theorem illegal_action_by_actor_is_auto_folded
    (s : Service) (playerId action : string) (amount : option float)
    (player : Player) (cp : ConnectedPlayer) (reason : string) (t' : Table)
    (Hseated : SeatOf playerId (players (table s)) player)
    (Hactor : exists actor,
        currentActor (table s) = Some actor /\ id actor = playerId)
    (Hreg : map_get playerId (connectedPlayers s) = Some cp)
    (Hrej : performAction (E := SpecEngine.engine) (table s) player action amount
            = Throws reason t') :
  completion (handlePlayerAction (E := SpecEngine.engine) playerId action amount s)
  = Normal tt /\
  (exists rest,
     sent (handlePlayerAction (E := SpecEngine.engine) playerId action amount s)
     = mkSent (socket cp) (MsgError reason) :: rest /\
     reachesAllOpen s
       (MsgNotification
          ((if (name cp =? "")%string then "Player" else name cp)
           ++ " auto-folded due to invalid action: " ++ reason)%string)
       rest) /\
  (exists q,
     SeatOf playerId
       (players (table (final (handlePlayerAction (E := SpecEngine.engine)
                                 playerId action amount s)))) q /\
     folded q = true) /\
  connectedPlayers
    (final (handlePlayerAction (E := SpecEngine.engine) playerId action amount s))
  = connectedPlayers s.
Proof.
  pose proof (findPlayer_SeatOf _ Hseated) as Hseat.
  pose proof (proj2 (isCurrentActor_spec (table s) playerId) Hactor) as Hturn.
  pose proof (findPlayer_id _ _ Hseat) as Hid.
  pose proof SpecEngineFacts.fold_is_always_legal as Hlegal.
  destruct (Hlegal (table s) player)
    as [afterFold Hfolded]; [now rewrite Hid | now rewrite Hid |].
  rewrite (rejected_action_run SpecEngineFacts.rejections_are_atomic
             s playerId action amount Hseat Hturn Hreg Hrej Hfolded).
  cbn [completion final sent fst snd table connectedPlayers withTable].
  split; [reflexivity|]. split; [|split; [|reflexivity]].
  - eexists. split; [reflexivity|].
    intros c Hc Hopen. apply in_or_app. left.
    unfold autoFoldNotice, displayName. rewrite Hreg.
    now apply toAll_reaches.
  - rewrite <- Hid in Hseat |- *.
    destruct (@fold_marks_folded _ _ _ Hseat Hfolded) as (q & Hq & Hout).
    exists q. split; [now apply SeatOf_findPlayer|exact Hout].
Qed.

(** Alice, to move before the flop, sends the unknown action [dance]. *)
Lemma illegal_action_by_actor_is_auto_folded_witness :
  completion (handlePlayerAction (E := SpecEngine.engine) "alice" "dance" None
                                 Demo.preflop)
  = Normal tt /\
  (exists rest,
     sent (handlePlayerAction (E := SpecEngine.engine) "alice" "dance" None
                              Demo.preflop)
     = mkSent (socket Demo.aliceEntry) (MsgError "Invalid action") :: rest /\
     reachesAllOpen Demo.preflop
       (MsgNotification
          ((if (name Demo.aliceEntry =? "")%string then "Player"
            else name Demo.aliceEntry)
           ++ " auto-folded due to invalid action: " ++ "Invalid action")%string)
       rest) /\
  (exists q,
     SeatOf "alice"
       (players (table (final (handlePlayerAction (E := SpecEngine.engine)
                                 "alice" "dance" None Demo.preflop)))) q /\
     folded q = true) /\
  connectedPlayers
    (final (handlePlayerAction (E := SpecEngine.engine) "alice" "dance" None
                               Demo.preflop))
  = connectedPlayers Demo.preflop.
Proof.
  assert (SeatOf "alice" (players (table Demo.preflop)) Demo.alice) as Hseat
    by (apply SeatOf_findPlayer; vm_compute; reflexivity).
  assert (exists actor, currentActor (table Demo.preflop) = Some actor
                        /\ id actor = "alice") as Hturn
    by (exists Demo.alice; split; vm_compute; reflexivity).
  assert (map_get "alice" (connectedPlayers Demo.preflop) = Some Demo.aliceEntry)
    as Hreg by (vm_compute; reflexivity).
  assert (performAction (E := SpecEngine.engine) (table Demo.preflop) Demo.alice
                        "dance" None
          = Throws "Invalid action" (table Demo.preflop)) as Hrej
    by reflexivity.
  exact (@illegal_action_by_actor_is_auto_folded
           Demo.preflop "alice" "dance" None Demo.alice Demo.aliceEntry
           "Invalid action" (table Demo.preflop) Hseat Hturn Hreg Hrej).
Defined.

(** ** The public projection does not read hole cards *)

Lemma isCurrentActor_hide (t : Table) (playerId : string) :
  isCurrentActor (hideTable t) playerId = isCurrentActor t playerId.
Proof. unfold isCurrentActor. cbn. now destruct (currentActor t). Qed.

Lemma potTotal_hide (t : Table) : potTotal (hideTable t) = potTotal t.
Proof.
  unfold potTotal. cbn [pots hideTable]. generalize 0%float.
  induction (pots t) as [|pot r IH]; intros acc; [reflexivity|].
  cbn. apply IH.
Qed.

Lemma includes_hide (ws : list Player) (w : Player) :
  includes (map hideCards ws) (hideCards w) = includes ws w.
Proof.
  unfold includes. induction ws as [|x r IH]; [reflexivity|].
  cbn [map existsb]. rewrite IH. reflexivity.
Qed.

Lemma addShare_hide (w : Player) (total : float) (pot : Pot) :
  addShare (hideCards w) total (hidePot pot) = addShare w total pot.
Proof.
  unfold addShare, winsPot, winnerCount. cbn [hidePot potWinners amount].
  destruct (potWinners pot) as [ws|]; cbn [option_map]; [|reflexivity].
  now rewrite includes_hide, length_map.
Qed.

Lemma winnerAmount_hide (t : Table) (w : Player) :
  winnerAmount (hideTable t) (hideCards w) = winnerAmount t w.
Proof.
  unfold winnerAmount. cbn [pots hideTable]. generalize 0%float.
  induction (pots t) as [|pot r IH]; intros acc; [reflexivity|].
  cbn [map fold_left]. now rewrite addShare_hide, IH.
Qed.

Lemma handCompleteMessage_hide (t : Table) :
  handCompleteMessage (hideTable t) = handCompleteMessage t.
Proof.
  unfold handCompleteMessage. cbn [winners hideTable].
  destruct (winners t) as [ws|]; [|reflexivity].
  cbn [option_map]. do 2 f_equal. rewrite map_map.
  apply map_ext. intros w. now rewrite winnerAmount_hide.
Qed.

Lemma getPublicPlayerStates_hide (s : Service) :
  getPublicPlayerStates (withTable (hideTable (table s)) s)
  = getPublicPlayerStates s.
Proof.
  unfold getPublicPlayerStates. cbn [table withTable players hideTable].
  rewrite map_map. apply map_ext. intros [p|]; [|reflexivity].
  cbn [option_map]. unfold publicPlayer.
  cbn [table withTable connectedPlayers hideCards id stackSize bet folded].
  now rewrite isCurrentActor_hide.
Qed.

Lemma publicState_hide (s : Service) :
  publicState (withTable (hideTable (table s)) s) = publicState s.
Proof.
  unfold publicState. rewrite getPublicPlayerStates_hide.
  cbn [table withTable]. rewrite potTotal_hide.
  cbn [hideTable communityCards currentBet currentRound currentActor].
  now destruct (currentActor (table s)).
Qed.

(** C3.  The public broadcasts (the public [gameState], the [players]
    list and [handComplete]) are the same for two service states that
    differ at most in players' hole cards.  Their payloads are built from
    community cards, pot total, current bet, current actor, current round
    and, per seat, id, name, stack, bet, folded flag and turn flag; no
    field holds a hole card, at showdown or otherwise. *)
Theorem public_broadcasts_hide_hole_cards (s1 s2 : Service)
    (Hreg : connectedPlayers s1 = connectedPlayers s2)
    (Hwss : wss s1 = wss s2)
    (Hsame : sameUpToHoleCards (table s1) (table s2)) :
  toAll s1 (MsgGameState (publicState s1))
  = toAll s2 (MsgGameState (publicState s2)) /\
  toAll s1 (MsgPlayers (getPublicPlayerStates s1))
  = toAll s2 (MsgPlayers (getPublicPlayerStates s2)) /\
  toAll s1 (handCompleteMessage (table s1))
  = toAll s2 (handCompleteMessage (table s2)).
Proof.
  rewrite <- (publicState_hide s1), <- (publicState_hide s2).
  rewrite <- (getPublicPlayerStates_hide s1), <- (getPublicPlayerStates_hide s2).
  rewrite <- (handCompleteMessage_hide (table s1)).
  rewrite <- (handCompleteMessage_hide (table s2)).
  destruct s1 as [t1 r1 w1], s2 as [t2 r2 w2].
  unfold sameUpToHoleCards in Hsame. cbn in Hreg, Hwss, Hsame.
  subst r2 w2. unfold toAll, withTable. cbn [table connectedPlayers wss].
  now rewrite Hsame.
Qed.

(** The dealt hand, and the same hand with two aces in Alice's seat. *)
Lemma public_broadcasts_hide_hole_cards_witness :
  table Demo.preflop <> table Demo.preflopOtherCards /\
  toAll Demo.preflop (MsgGameState (publicState Demo.preflop))
  = toAll Demo.preflopOtherCards (MsgGameState (publicState Demo.preflopOtherCards)).
Proof.
  split; [discriminate|].
  apply (public_broadcasts_hide_hole_cards Demo.preflop Demo.preflopOtherCards);
    reflexivity.
Defined.

(** ** The raise check *)


(** The service's own check on a raise compares the increase with the
    big blind and knows nothing of the last raise; a request that passes
    it is handed to the engine's [raiseAction]. *)
Lemma raise_check_compares_with_big_blind {E : Engine} (t : Table)
    (player : Player) (a : float) :
  (raiseRejected t player a = false <->
     (a - currentBetOrZero t <? ofZ (bigBlind t))%float = false
     \/ (a =? stackSize player)%float = true
     \/ isRaisingToBigBlind t player a = true)
  /\ performAction t player "raise" (Some a)
     = (if raiseRejected t player a
        then Throws (raiseMessage t) t
        else raiseAction t player a).
Proof.
  split; [|reflexivity].
  unfold raiseRejected, raiseAmount. cbn [isAllIn].
  destruct (a =? stackSize player)%float;
    destruct (isRaisingToBigBlind t player a);
    destruct (a - currentBetOrZero t <? ofZ (bigBlind t))%float;
    cbn; intuition discriminate.
Qed.


(** Bob faces a raise of 50 (current bet 60, big blind 10) and asks to
    raise to 75.  The increase of 15 passes the service's own check,
    which only knows the big blind; the engine refuses it. *)
Example raise_below_last_raise_is_refused :
  raiseRejected Demo.reraised Demo.bobFacingRaise 75 = false /\
  ~ raiseAllowed Demo.reraised Demo.bobFacingRaise 75 /\
  performAction (E := SpecEngine.engine) Demo.reraised Demo.bobFacingRaise
                "raise" (Some 75%float)
  = Throws "Raise is below the minimum raise." Demo.reraised.
Proof.
  split; [reflexivity|]. split; [|reflexivity].
  unfold raiseAllowed. vm_compute. intuition discriminate.
Qed.

(** ** Joining *)

Lemma map_get_set (k : string) (v : ConnectedPlayer) (m : Registry) :
  map_get k (map_set k v m) = Some v.
Proof.
  induction m as [|[k' v'] r IH]; cbn.
  - now rewrite String.eqb_refl.
  - destruct (String.eqb_spec k' k) as [->|Hk]; cbn.
    + now rewrite String.eqb_refl.
    + apply String.eqb_neq in Hk. now rewrite Hk.
Qed.

Section Join.

Context {E : Engine}.

Variables (s : Service) (sock : WebSocket) (playerId nm : string) (requested : float).

Lemma handlePlayerJoin_seated (t' : Table) :
  sitDown (table s) playerId FIXED_BUY_IN = Returns t' ->
  handlePlayerJoin sock playerId nm requested s =
    (Normal tt, joined s sock playerId nm t',
     mkSent sock
       (MsgPlayerGameState (getPlayerState (joined s sock playerId nm t') playerId))
     :: toAll s (MsgPlayers (getPublicPlayerStates (joined s sock playerId nm t')))).
Proof.
  intros Hsit. unfold handlePlayerJoin, tryCatch.
  unfold bind at 1, callEngine at 1. rewrite Hsit.
  unfold bind, modify, get, gets, sendToPlayer, broadcast, bind, get, gets.
  cbn [connectedPlayers withRegistry]. rewrite map_get_set. reflexivity.
Qed.

Lemma handlePlayerJoin_refused (reason : string) (t' : Table) :
  sitDown (table s) playerId FIXED_BUY_IN = Throws reason t' ->
  handlePlayerJoin sock playerId nm requested s =
    (Normal tt, withTable t' s, [mkSent sock (MsgError reason)]).
Proof.
  intros Hsit. unfold handlePlayerJoin, tryCatch.
  unfold bind at 1, callEngine at 1. now rewrite Hsit.
Qed.

End Join.

(** C5.  The run of a join (completion, resulting table and registry,
    messages sent) is the same whatever [buyIn] the client supplied, and
    on an engine that seats a player with the chips handed to [sitDown],
    the player a successful join seats has a stack of 1000. *)
Theorem join_ignores_requested_buy_in {E : Engine}
    (Hseats : sitDown_seats_with E) (s : Service) (sock : WebSocket)
    (playerId nm : string) (buyIn1 buyIn2 : float) (t' : Table)
    (Hsit : sitDown (table s) playerId FIXED_BUY_IN = Returns t') :
  handlePlayerJoin sock playerId nm buyIn1 s
  = handlePlayerJoin sock playerId nm buyIn2 s /\
  exists p,
    findPlayer (table (final (handlePlayerJoin sock playerId nm buyIn1 s))) playerId
    = Some p /\
    stackSize p = 1000%float.
Proof.
  split; [reflexivity|].
  rewrite (handlePlayerJoin_seated s sock playerId nm buyIn1 Hsit).
  cbn [final fst snd joined table withRegistry withTable].
  exact (Hseats _ _ _ _ Hsit).
Qed.

(** Carol joins the table of two asking for 25 chips, or for 99999. *)
Lemma join_ignores_requested_buy_in_witness :
  handlePlayerJoin (E := SpecEngine.engine) 3%nat "carol" "Carol" 25 Demo.seatedPair
  = handlePlayerJoin (E := SpecEngine.engine) 3%nat "carol" "Carol" 99999 Demo.seatedPair /\
  exists p,
    findPlayer
      (table (final (handlePlayerJoin (E := SpecEngine.engine)
                       3%nat "carol" "Carol" 25 Demo.seatedPair))) "carol"
    = Some p /\
    stackSize p = 1000%float.
Proof.
  eapply (join_ignores_requested_buy_in SpecEngineFacts.sit_seats_with
            Demo.seatedPair 3%nat "carol" "Carol" 25 99999).
  reflexivity.
Defined.

(** C10.  When the engine refuses to seat the player, the join sends one
    error, to the joining socket, and nothing else: no [gameState] to the
    joiner, no [players] broadcast; the registry is as before. *)
Theorem failed_join_registers_nothing {E : Engine} (s : Service)
    (sock : WebSocket) (playerId nm : string) (requested : float)
    (reason : string) (t' : Table)
    (Hfail : sitDown (table s) playerId FIXED_BUY_IN = Throws reason t') :
  sent (handlePlayerJoin sock playerId nm requested s)
  = [mkSent sock (MsgError reason)] /\
  connectedPlayers (final (handlePlayerJoin sock playerId nm requested s))
  = connectedPlayers s /\
  completion (handlePlayerJoin sock playerId nm requested s) = Normal tt.
Proof.
  rewrite (handlePlayerJoin_refused s sock playerId nm requested Hfail).
  repeat split.
Qed.

(** A second connection tries to join as Alice, who is seated. *)
Lemma failed_join_registers_nothing_witness :
  sent (handlePlayerJoin (E := SpecEngine.engine) 2%nat "alice" "Mallory" 1000
                         Demo.seatedPair)
  = [mkSent 2%nat (MsgError "Player already joined this table.")] /\
  connectedPlayers
    (final (handlePlayerJoin (E := SpecEngine.engine) 2%nat "alice" "Mallory" 1000
                             Demo.seatedPair))
  = connectedPlayers Demo.seatedPair /\
  completion (handlePlayerJoin (E := SpecEngine.engine) 2%nat "alice" "Mallory" 1000
                               Demo.seatedPair)
  = Normal tt.
Proof.
  apply (failed_join_registers_nothing (E := SpecEngine.engine)
           Demo.seatedPair 2%nat "alice" "Mallory" 1000
           (reason := "Player already joined this table.")
           (t' := table Demo.seatedPair)).
  reflexivity.
Defined.

(** ** Restart *)

Lemma restartGame_run {E : Engine} (s : Service) :
  restartGame s =
    (Normal tt, initialService (wss s),
     toAll s (MsgGameReset resetNotice)
     ++ toAll s (MsgGameState (publicState (initialService (wss s))))).
Proof.
  unfold restartGame.
  unfold bind at 1, modify at 1. unfold bind at 1, modify at 1.
  unfold bind at 1, broadcast at 1, bind at 1. cbn [get gets emit].
  rewrite broadcastGameState_run.
  unfold gameStateSends, privateSends. cbn. now rewrite app_nil_r.
Qed.

(** C7.  In every state, also in mid-hand, a restart completes normally
    and leaves the service as its constructor builds it: the table is a
    fresh engine table, the registry is empty, the client list is
    untouched.  Every open client of the server receives the [gameReset]
    notice and then the public state of the fresh table; nothing else is
    sent and nothing goes to a client that is not open.  A join after the
    restart runs exactly as on a service that never saw a game. *)
Theorem restart_resets_everything {E : Engine} (s : Service) :
  restartGame s =
    (Normal tt, initialService (wss s),
     toAll s (MsgGameReset resetNotice)
     ++ toAll s (MsgGameState (publicState (initialService (wss s))))) /\
  (table (final (restartGame s)) = newTable 1000 5 10 /\
   connectedPlayers (final (restartGame s)) = [] /\
   wss (final (restartGame s)) = wss s) /\
  reachesAllOpen s
    (MsgGameReset "Game has been reset. All players must rejoin.")
    (sent (restartGame s)) /\
  reachesAllOpen s
    (MsgGameState (publicState (mkService (newTable 1000 5 10) [] (wss s))))
    (sent (restartGame s)) /\
  (forall x, In x (sent (restartGame s)) ->
     (payload x = MsgGameReset "Game has been reset. All players must rejoin."
      \/ payload x
         = MsgGameState (publicState (mkService (newTable 1000 5 10) [] (wss s))))
     /\ exists c, In c (wss s) /\ readyState c = OPEN
                  /\ recipient x = clientSocket c) /\
  (forall sock playerId nm requested,
     handlePlayerJoin sock playerId nm requested (final (restartGame s))
     = handlePlayerJoin sock playerId nm requested
                        (mkService (newTable 1000 5 10) [] (wss s))).
Proof.
  rewrite restartGame_run. cbn [final sent fst snd].
  split; [reflexivity|]. split; [repeat split|].
  split; [|split; [|split]].
  - intros c Hc Hopen. apply in_or_app. left. now apply toAll_reaches.
  - intros c Hc Hopen. apply in_or_app. right. now apply toAll_reaches.
  - intros x Hx. apply in_app_or in Hx as [Hx|Hx];
      apply toAll_only in Hx as [Hpayload Hopen]; (split; [|exact Hopen]).
    + now left.
    + now right.
  - reflexivity.
Qed.

(** When the engine seats the player at a fresh table, the join after a
    restart registers the player and answers with the player's state and
    the seat list. *)
Lemma join_after_restart_succeeds {E : Engine} (s : Service) (sock : WebSocket)
    (playerId nm : string) (requested : float) (t' : Table) :
  sitDown (newTable 1000 5 10) playerId FIXED_BUY_IN = Returns t' ->
  let fresh := initialService (wss s) in
  handlePlayerJoin sock playerId nm requested (final (restartGame s)) =
    (Normal tt, joined fresh sock playerId nm t',
     mkSent sock
       (MsgPlayerGameState (getPlayerState (joined fresh sock playerId nm t') playerId))
     :: toAll s (MsgPlayers (getPublicPlayerStates (joined fresh sock playerId nm t')))).
Proof.
  intros Hsit fresh. subst fresh. rewrite restartGame_run. cbn [final fst snd].
  exact (handlePlayerJoin_seated (initialService (wss s)) sock playerId nm
           requested Hsit).
Qed.

(** On the reference engine, Alice rejoins after a restart in mid-hand
    and is seated with 1000 chips at a table with no hand in progress. *)
Example rejoin_after_restart :
  let restarted :=
    final (restartGame (E := SpecEngine.engine) Demo.preflop) in
  let rejoined :=
    final (handlePlayerJoin (E := SpecEngine.engine) 1%nat "alice" "Alice" 0
                            restarted) in
  connectedPlayers restarted = [] /\
  SpecEngine.seatedPlayers (players (table restarted)) = [] /\
  SpecEngine.seatedPlayers (players (table rejoined))
  = [mkPlayer "alice" 1000 0 false None] /\
  currentRound (table rejoined) = None.
Proof. repeat split. Qed.

(** ** Starting a hand *)

Lemma startNewHand_failed {E : Engine} (s : Service) (reason : string)
    (t' : Table) :
  dealCards (table s) = Throws reason t' ->
  startNewHand s = (Normal tt, withTable t' s, toAll s (MsgError startFailed)).
Proof.
  intros Hdeal. unfold startNewHand, tryCatch.
  unfold bind at 1, callEngine at 1. rewrite Hdeal.
  unfold broadcast, bind, get, gets, emit. reflexivity.
Qed.

(** C8, as the code has it.  When the engine's [dealCards] refuses to
    start a hand, as the engine of the specification does while fewer
    than two players are seated with chips, the handler completes
    normally and every open client of the server receives a message of
    type [error] with the fixed text; that is all that is sent, so no
    notification goes out.  The registry is unchanged.  The service
    itself does nothing to the table: it is left exactly as [dealCards]
    left it when it threw, and is not put back to what it was before. *)
Theorem failed_start_broadcasts_error {E : Engine} (s : Service)
    (reason : string) (t' : Table)
    (Hthrow : dealCards (table s) = Throws reason t') :
  completion (startNewHand s) = Normal tt /\
  reachesAllOpen s
    (MsgError "Failed to start new hand. Make sure there are enough players.")
    (sent (startNewHand s)) /\
  (forall x, In x (sent (startNewHand s)) ->
     payload x
     = MsgError "Failed to start new hand. Make sure there are enough players."
     /\ exists c, In c (wss s) /\ readyState c = OPEN
                  /\ recipient x = clientSocket c) /\
  table (final (startNewHand s)) = t' /\
  connectedPlayers (final (startNewHand s)) = connectedPlayers s /\
  wss (final (startNewHand s)) = wss s.
Proof.
  rewrite (startNewHand_failed s Hthrow).
  cbn [completion final sent fst snd table connectedPlayers wss withTable].
  split; [reflexivity|]. split; [apply toAll_reaches|].
  split; [|repeat split].
  intros x Hx. now apply toAll_only in Hx.
Qed.

(** Start on the table nobody has joined. *)
Lemma failed_start_broadcasts_error_witness :
  dealCards (Engine := SpecEngine.engine) (table Demo.fresh)
  = Throws "Not enough players to start." (table Demo.fresh) /\
  reachesAllOpen Demo.fresh
    (MsgError "Failed to start new hand. Make sure there are enough players.")
    (sent (startNewHand (E := SpecEngine.engine) Demo.fresh)) /\
  table (final (startNewHand (E := SpecEngine.engine) Demo.fresh))
  = table Demo.fresh.
Proof.
  assert (dealCards (Engine := SpecEngine.engine) (table Demo.fresh)
          = Throws "Not enough players to start." (table Demo.fresh)) as Hthrow
    by reflexivity.
  split; [exact Hthrow|].
  destruct (failed_start_broadcasts_error (E := SpecEngine.engine)
              Demo.fresh Hthrow) as (_ & Hall & _ & Htable & _).
  split; [exact Hall|exact Htable].
Defined.

(** On the engine of the specification a start with fewer than two
    players with chips is such a refusal, and it leaves the table alone. *)
Lemma start_needs_two_players (s : Service) :
  (seatedWithChips (table s) < 2)%nat ->
  startNewHand (E := SpecEngine.engine) s
  = (Normal tt, s, toAll s (MsgError startFailed)).
Proof.
  intros Hfew.
  destruct (SpecEngineFacts.deal_needs_two_players (table s) Hfew) as [reason Hthrow].
  rewrite (startNewHand_failed (E := SpecEngine.engine) s Hthrow).
  now rewrite withTable_same.
Qed.

(** What a refused start leaves of the table is the engine's doing.  On
    an engine that clears the previous hand before it counts the players,
    a start with one player with chips is refused with the same [error]
    to everyone, and the board and the winners of the last hand are gone
    from the table. *)
Example refused_start_may_clear_the_table :
  seatedWithChips (table Scenes.afterBust) = 1%nat /\
  sent (startNewHand (E := TidyingEngine.engine) Scenes.afterBust)
  = [mkSent 1%nat
       (MsgError "Failed to start new hand. Make sure there are enough players.");
     mkSent 2%nat
       (MsgError "Failed to start new hand. Make sure there are enough players.")] /\
  winners (table Scenes.afterBust) = Some [Scenes.aliceWonAll] /\
  winners (table (final (startNewHand (E := TidyingEngine.engine)
                                      Scenes.afterBust))) = None /\
  communityCards (table (final (startNewHand (E := TidyingEngine.engine)
                                             Scenes.afterBust))) = [] /\
  final (startNewHand (E := SpecEngine.engine) Scenes.afterBust)
  = Scenes.afterBust.
Proof. repeat split. Qed.

(** C8, as stated, fails.  With one seated player the start fails and
    both open connections get an [error] message; no message of type
    [notification] is sent. *)
Lemma failed_start_sends_no_notification :
  let s := Demo.feed Demo.fresh (1%nat, Join "alice" "Alice" 1000) in
  seatedWithChips (table s) = 1%nat /\
  sent (startNewHand (E := SpecEngine.engine) s)
  = [mkSent 1%nat
       (MsgError "Failed to start new hand. Make sure there are enough players.");
     mkSent 2%nat
       (MsgError "Failed to start new hand. Make sure there are enough players.")] /\
  ~ Exists isNotification (sent (startNewHand (E := SpecEngine.engine) s)).
Proof.
  cbv zeta. split; [reflexivity|]. split; [reflexivity|].
  intros H. apply Exists_exists in H as (m & Hin & text & Hm).
  cbn in Hin. destruct Hin as [<-|[<-|[]]]; discriminate Hm.
Qed.

(** ** Private state *)

Lemma map_get_present (k : string) (v : ConnectedPlayer) (m : Registry) :
  In (k, v) m -> exists v', map_get k m = Some v'.
Proof.
  induction m as [|[k' w] r IH]; [intros []|].
  intros Hin. cbn. destruct (k' =? k)%string eqn:Hk; [eauto|].
  destruct Hin as [Heq|Hin]; [|now apply IH].
  inversion Heq; subst. now rewrite String.eqb_refl in Hk.
Qed.

Lemma Forall2_flat_map {A B} (R : A -> B -> Prop) (g : A -> list B) (l : list A) :
  (forall x, In x l -> exists y, g x = [y] /\ R x y) ->
  Forall2 R l (flat_map g l).
Proof.
  induction l as [|x r IH]; intros Hg; [constructor|].
  destruct (Hg x (or_introl eq_refl)) as (y & Hy & HR).
  cbn [flat_map]. rewrite Hy. constructor; [exact HR|].
  apply IH. intros z Hz. apply Hg. now right.
Qed.

Lemma privateState_ownView {E : Engine} (s : Service) (playerId : string) :
  ownView s playerId (privateState s playerId).
Proof.
  unfold ownView, privateState.
  cbn [pv_holeCards pv_availableActions pv_minRaise pv_maxBet].
  split; [|split; [|split; [|split; [|reflexivity]]]].
  - intros p Hp. now rewrite (findPlayer_SeatOf _ Hp).
  - intros Hnone. now rewrite (findPlayer_Unseated _ Hnone).
  - intros actor Hactor Hid. unfold isCurrentActor. rewrite Hactor.
    apply String.eqb_eq in Hid. now rewrite Hid.
  - intros Hother. unfold isCurrentActor.
    destruct (currentActor (table s)) as [actor|]; [|reflexivity].
    assert (id actor <> playerId) as Hid by now apply Hother.
    apply String.eqb_neq in Hid. now rewrite Hid.
Qed.

(** C9.  One [broadcastGameState] sends, after the public broadcast,
    exactly one [privateState] per registry entry, in registry order and
    to that entry's registered socket.  The message for a player holds
    the hole cards of that player's own seat, the engine's legal actions
    when that player is the current actor and the empty list otherwise,
    the minimum raise (the last raise, or the big blind when there is
    none), and as maximum bet the stack of that player's own seat. *)
Theorem private_state_is_per_player {E : Engine} (s : Service) :
  sent (broadcastGameState s)
  = toAll s (MsgGameState (publicState s)) ++ privateSends s /\
  Forall2 (privatelyServed s) (connectedPlayers s) (privateSends s) /\
  (forall x pv, In x (sent (broadcastGameState s)) ->
     payload x = MsgPrivateState pv ->
     exists playerId cp,
       map_get playerId (connectedPlayers s) = Some cp /\
       recipient x = socket cp /\
       ownView s playerId pv).
Proof.
  split; [now rewrite broadcastGameState_run|].
  split; [|rewrite broadcastGameState_run; cbn [sent snd];
           unfold gameStateSends; intros x pv Hx Hpv;
           apply in_app_or in Hx as [Hx|Hx];
           [apply toAll_only in Hx as [Hx _]; congruence|];
           unfold privateSends in Hx;
           apply in_flat_map in Hx as (entry & _ & Hx);
           unfold privateSendFor in Hx;
           destruct (map_get (fst entry) (connectedPlayers s)) as [cp|] eqn:Hcp;
           [|contradiction];
           destruct Hx as [<-|[]]; cbn [payload] in Hpv; inversion Hpv; subst pv;
           exists (fst entry), cp; split; [exact Hcp|];
           split; [reflexivity|apply privateState_ownView]].
  apply Forall2_flat_map. intros [k v] Hin.
  destruct (map_get_present _ _ _ Hin) as [cp Hcp].
  unfold privateSendFor. cbn [fst]. rewrite Hcp.
  eexists. split; [reflexivity|].
  exists cp, (privateState s k). cbn [recipient payload].
  split; [exact Hcp|]. split; [reflexivity|]. split; [reflexivity|].
  apply privateState_ownView.
Qed.

(** ** The amounts of [handComplete] *)

Lemma includes_spec (ws : list Player) (w : Player) :
  includes ws w = true <-> exists x, In x ws /\ id x = id w.
Proof.
  unfold includes. rewrite existsb_exists.
  split; intros (x & Hx & Hid); exists x; (split; [exact Hx|]);
    now apply String.eqb_eq.
Qed.

Lemma winnerAmount_withLastPot (t : Table) (pot : Pot) (w : Player) :
  winnerAmount (withLastPot pot t) w = addShare w (winnerAmount t w) pot.
Proof.
  unfold winnerAmount, withLastPot. cbn [pots]. now rewrite fold_left_app.
Qed.

(** C6, as the code has it.  The amount announced for a winner is
    computed in double arithmetic, pot by pot in the table's order,
    starting from [0]: a pot that lists the winner among its winners adds
    the pot amount divided by the number of that pot's winners; any other
    pot adds nothing.  The message names every winner of the table with
    the amount so computed.  Nothing is rounded to whole chips and no
    remainder is moved to any winner. *)
Theorem announced_amount_is_double_quotient (t : Table) (w : Player) :
  (pots t = [] -> winnerAmount t w = 0%float) /\
  (forall pot ws,
     potWinners pot = Some ws ->
     (exists x, In x ws /\ id x = id w) ->
     winnerAmount (withLastPot pot t) w
     = (winnerAmount t w + amount pot / ofZ (Z.of_nat (length ws)))%float) /\
  (forall pot,
     (forall ws x, potWinners pot = Some ws -> In x ws -> id x <> id w) ->
     winnerAmount (withLastPot pot t) w = winnerAmount t w) /\
  (winners t = None -> handCompleteMessage t = MsgHandComplete None) /\
  (forall ws, winners t = Some ws ->
     handCompleteMessage t
     = MsgHandComplete
         (Some (map (fun x => mkWinnerEntry (id x) (winnerAmount t x)) ws))).
Proof.
  split; [|split; [|split; [|split]]].
  - intros Hnone. unfold winnerAmount. now rewrite Hnone.
  - intros pot ws Hws Hin. rewrite winnerAmount_withLastPot.
    unfold addShare, winsPot, winnerCount. rewrite Hws.
    rewrite (proj2 (includes_spec ws w) Hin).
    destruct Hin as (x & Hx & _). destruct ws as [|y r]; [contradiction|].
    reflexivity.
  - intros pot Hout. rewrite winnerAmount_withLastPot.
    unfold addShare, winsPot.
    destruct (potWinners pot) as [ws|]; [|reflexivity].
    destruct (includes ws w) eqn:Hin; [|reflexivity].
    apply includes_spec in Hin as (x & Hx & Hid).
    now destruct (Hout ws x eq_refl Hx).
  - intros Hnone. unfold handCompleteMessage. now rewrite Hnone.
  - intros ws Hws. unfold handCompleteMessage. now rewrite Hws.
Qed.

(** Bob's share of a first pot of 25 that he and Carol win. *)
Lemma announced_amount_is_double_quotient_witness :
  winnerAmount
    (withLastPot (mkPot 25 [Demo.bobShown; Demo.carolShown]
                        (Some [Demo.bobShown; Demo.carolShown]))
                 (table Demo.fresh))
    Demo.bobShown
  = (winnerAmount (table Demo.fresh) Demo.bobShown + 25 / ofZ 2)%float.
Proof.
  destruct (announced_amount_is_double_quotient (table Demo.fresh) Demo.bobShown)
    as (_ & Hwins & _).
  apply (Hwins (mkPot 25 [Demo.bobShown; Demo.carolShown]
                      (Some [Demo.bobShown; Demo.carolShown]))
               [Demo.bobShown; Demo.carolShown] eq_refl).
  exists Demo.bobShown. split; [now left|reflexivity].
Defined.

(** C6, as stated, fails.  Bob and Carol tie for a pot of 25.  In whole
    chips the earlier of the two would get 13 and the other 12; the
    message announces 12.5 to each, which lies strictly between 12 and 13
    and is not the 13 of the earliest-acting winner. *)
Lemma split_pot_announces_fractions :
  wholeChipShare 25 2 0 = 13 /\
  wholeChipShare 25 2 1 = 12 /\
  handCompleteMessage Demo.splitPot
  = MsgHandComplete (Some [mkWinnerEntry "bob" 12.5%float;
                           mkWinnerEntry "carol" 12.5%float]) /\
  (winnerAmount Demo.splitPot Demo.bobShown
   =? ofZ (wholeChipShare 25 2 0))%float = false /\
  ((12 <? winnerAmount Demo.splitPot Demo.bobShown)
   && (winnerAmount Demo.splitPot Demo.bobShown <? 13))%float = true.
Proof.
  repeat split; vm_compute; reflexivity.
Qed.

(** Three winners of a pot of 35 are each announced the double nearest to
    35/3, written 11.666666666666666 by JavaScript; it is no whole number
    of chips either. *)
Example three_way_pot_is_rounded :
  handCompleteMessage Demo.threeWayPot
  = MsgHandComplete (Some [mkWinnerEntry "alice" 0x1.7555555555555p+3%float;
                           mkWinnerEntry "bob" 0x1.7555555555555p+3%float;
                           mkWinnerEntry "carol" 0x1.7555555555555p+3%float]) /\
  ((11 <? winnerAmount Demo.threeWayPot Demo.aliceShown)
   && (winnerAmount Demo.threeWayPot Demo.aliceShown <? 12))%float = true.
Proof.
  repeat split; vm_compute; reflexivity.
Qed.

(** * Further properties of the service *)

(** ** The registry as a map *)

Lemma map_get_set_other (k k' : string) (v : ConnectedPlayer) (m : Registry) :
  k' <> k -> map_get k' (map_set k v m) = map_get k' m.
Proof.
  intros Hk. induction m as [|[k0 v0] r IH]; cbn.
  - apply String.eqb_neq in Hk. rewrite String.eqb_sym. now rewrite Hk.
  - destruct (String.eqb_spec k0 k) as [->|Hk0]; cbn.
    + destruct (String.eqb_spec k k') as [->|_]; [contradiction|].
      reflexivity.
    + now rewrite IH.
Qed.

Lemma map_get_delete_same (k : string) (m : Registry) :
  map_get k (map_delete k m) = None.
Proof.
  unfold map_delete. induction m as [|[k0 v0] r IH]; [reflexivity|].
  cbn. destruct (String.eqb_spec k0 k) as [->|Hk0]; cbn; [exact IH|].
  apply String.eqb_neq in Hk0. now rewrite Hk0.
Qed.

Lemma map_get_delete_other (k k' : string) (m : Registry) :
  k' <> k -> map_get k' (map_delete k m) = map_get k' m.
Proof.
  intros Hk. unfold map_delete. induction m as [|[k0 v0] r IH]; [reflexivity|].
  cbn. destruct (String.eqb_spec k0 k) as [->|Hk0]; cbn.
  - destruct (String.eqb_spec k k') as [->|_]; [contradiction|]. exact IH.
  - now rewrite IH.
Qed.

Lemma map_delete_absent (k : string) (m : Registry) :
  map_get k m = None -> map_delete k m = m.
Proof.
  unfold map_delete. induction m as [|[k0 v0] r IH]; [reflexivity|].
  cbn. destruct (String.eqb_spec k0 k) as [->|Hk0]; [discriminate|].
  cbn. intros H. now rewrite IH.
Qed.

Lemma map_delete_set_fresh (k : string) (v : ConnectedPlayer) (m : Registry) :
  map_get k m = None -> map_delete k (map_set k v m) = m.
Proof.
  induction m as [|[k0 v0] r IH]; cbn.
  - now rewrite String.eqb_refl.
  - destruct (String.eqb_spec k0 k) as [->|Hk0]; [discriminate|].
    intros H. cbn. apply String.eqb_neq in Hk0. rewrite Hk0. cbn.
    f_equal. now apply IH.
Qed.

(** ** Leaving and closing *)

Lemma handlePlayerLeave_run {E : Engine} (s : Service) (playerId : string)
    (player : Player) (t' : Table) :
  findPlayer (table s) playerId = Some player ->
  standUp (table s) player = Returns t' ->
  handlePlayerLeave playerId s =
    (Normal tt,
     withRegistry (map_delete playerId (connectedPlayers s)) (withTable t' s),
     toAll s (MsgPlayers
                (getPublicPlayerStates
                   (withRegistry (map_delete playerId (connectedPlayers s))
                                 (withTable t' s))))).
Proof.
  intros Hseat Hstand. unfold handlePlayerLeave, bind at 1. cbn [get gets].
  rewrite Hseat. unfold bind at 1, callEngine at 1. rewrite Hstand.
  unfold bind, modify, broadcast, bind, get, gets, emit. reflexivity.
Qed.

Lemma handlePlayerLeave_unseated {E : Engine} (s : Service) (playerId : string) :
  findPlayer (table s) playerId = None ->
  handlePlayerLeave playerId s = (Normal tt, s, []).
Proof.
  intros Hnone. unfold handlePlayerLeave, bind, get, gets. now rewrite Hnone.
Qed.

(** X1.  A closing socket changes nothing and nothing is sent when no
    registry entry is on that socket, and also when the first entry on it
    belongs to an id that has no seat: that entry stays registered. *)
Theorem close_without_seat_is_ignored {E : Engine} (s : Service) (sock : WebSocket)
    (Hnoseat : forall entry,
        find (fun e => (socket (snd e) =? sock)%nat) (connectedPlayers s)
        = Some entry ->
        findPlayer (table s) (fst entry) = None) :
  onClose sock s = (Normal tt, s, []).
Proof.
  unfold onClose, bind, get, gets.
  destruct (find _ (connectedPlayers s)) as [entry|] eqn:Hfind; [|reflexivity].
  rewrite (handlePlayerLeave_unseated s (fst entry) (Hnoseat entry eq_refl)).
  reflexivity.
Qed.

(** Alice's socket closes while she is registered without a seat. *)
Lemma close_without_seat_is_ignored_witness :
  map_get "alice" (connectedPlayers Scenes.ghosts) = Some Demo.aliceEntry /\
  onClose (E := SpecEngine.engine) 1%nat Scenes.ghosts
  = (Normal tt, Scenes.ghosts, []).
Proof.
  split; [reflexivity|].
  apply (close_without_seat_is_ignored (E := SpecEngine.engine) Scenes.ghosts 1%nat).
  intros entry Hfind. cbn in Hfind. inversion Hfind; subst entry. reflexivity.
Defined.

(** X2.  When a seated player leaves and the engine's [standUp] returns,
    the id is no longer registered, every other registry entry is as
    before, the table is the one [standUp] left, and all that is sent is
    the new seat list to every open client. *)
Theorem leave_unregisters_that_id_only {E : Engine} (s : Service)
    (playerId : string) (player : Player) (t' : Table)
    (Hseat : findPlayer (table s) playerId = Some player)
    (Hstand : standUp (table s) player = Returns t') :
  completion (handlePlayerLeave playerId s) = Normal tt /\
  table (final (handlePlayerLeave playerId s)) = t' /\
  map_get playerId (connectedPlayers (final (handlePlayerLeave playerId s))) = None /\
  (forall other, other <> playerId ->
     map_get other (connectedPlayers (final (handlePlayerLeave playerId s)))
     = map_get other (connectedPlayers s)) /\
  sent (handlePlayerLeave playerId s)
  = toAll s (MsgPlayers
               (getPublicPlayerStates (final (handlePlayerLeave playerId s)))) /\
  reachesAllOpen s
    (MsgPlayers (getPublicPlayerStates (final (handlePlayerLeave playerId s))))
    (sent (handlePlayerLeave playerId s)).
Proof.
  rewrite (handlePlayerLeave_run s playerId Hseat Hstand).
  cbn [completion final sent fst snd table connectedPlayers withRegistry withTable].
  repeat split.
  - apply map_get_delete_same.
  - intros other Hother. now apply map_get_delete_other.
  - apply toAll_reaches.
Qed.

(** Bob leaves the table of two. *)
Lemma leave_unregisters_that_id_only_witness :
  map_get "bob"
    (connectedPlayers (final (handlePlayerLeave (E := SpecEngine.engine) "bob"
                                                Demo.seatedPair))) = None /\
  map_get "alice"
    (connectedPlayers (final (handlePlayerLeave (E := SpecEngine.engine) "bob"
                                                Demo.seatedPair)))
  = Some Demo.aliceEntry.
Proof.
  destruct (leave_unregisters_that_id_only (E := SpecEngine.engine)
              Demo.seatedPair "bob"
              (player := mkPlayer "bob" 1000 0 false None)
              (t' := SpecEngine.withPlayers
                       (map (SpecEngine.vacate "bob") (players (table Demo.seatedPair)))
                       (table Demo.seatedPair))
              eq_refl eq_refl) as (_ & _ & Hgone & Hkept & _).
  split; [exact Hgone|].
  rewrite (Hkept "alice"); [reflexivity|discriminate].
Defined.

(** X3.  A closing socket unregisters only the first registry entry on
    that socket: any other id stays registered, also one that was
    registered over the same socket. *)
Theorem close_removes_first_entry_only {E : Engine} (s : Service)
    (sock : WebSocket) (entry : string * ConnectedPlayer) (player : Player)
    (t' : Table)
    (Hfirst : find (fun e => (socket (snd e) =? sock)%nat) (connectedPlayers s)
              = Some entry)
    (Hseat : findPlayer (table s) (fst entry) = Some player)
    (Hstand : standUp (table s) player = Returns t') :
  connectedPlayers (final (onClose sock s))
  = map_delete (fst entry) (connectedPlayers s) /\
  (forall other, other <> fst entry ->
     map_get other (connectedPlayers (final (onClose sock s)))
     = map_get other (connectedPlayers s)).
Proof.
  assert (connectedPlayers (final (onClose sock s))
          = map_delete (fst entry) (connectedPlayers s)) as Hreg.
  { unfold onClose, bind at 1. cbn [get gets]. rewrite Hfirst.
    rewrite (handlePlayerLeave_run s (fst entry) Hseat Hstand).
    reflexivity. }
  split; [exact Hreg|].
  intros other Hother. rewrite Hreg. now apply map_get_delete_other.
Qed.

(** The connection that joined as Alice and as Bob closes: Alice leaves,
    Bob stays registered on the closed socket. *)
Lemma close_removes_first_entry_only_witness :
  connectedPlayers (final (onClose (E := SpecEngine.engine) 1%nat Scenes.sharedSocket))
  = [("bob", mkConnected "bob" "Bob" 1%nat)] /\
  map_get "bob"
    (connectedPlayers (final (onClose (E := SpecEngine.engine) 1%nat
                                      Scenes.sharedSocket)))
  = Some (mkConnected "bob" "Bob" 1%nat).
Proof.
  destruct (close_removes_first_entry_only (E := SpecEngine.engine)
              Scenes.sharedSocket 1%nat
              (entry := ("alice", Demo.aliceEntry))
              (player := mkPlayer "alice" 1000 0 false None)
              (t' := SpecEngine.withPlayers
                       (map (SpecEngine.vacate "alice")
                            (players (table Scenes.sharedSocket)))
                       (table Scenes.sharedSocket))
              eq_refl eq_refl eq_refl) as [Hreg Hkept].
  split; [exact Hreg|].
  rewrite (Hkept "bob"); [reflexivity|discriminate].
Defined.

(** ** The message listener *)

(** X4.  The message listener never lets an exception escape, whatever
    the message, the state and the engine.  A text that does not parse is
    answered with [Invalid message format] and a message of an unknown
    type with [Unknown message type], each sent to the sender alone and
    with the state untouched. *)
Theorem message_listener_never_throws {E : Engine} (s : Service)
    (sock : WebSocket) (parsed : option ClientMessage) :
  completion (onMessage sock parsed s) = Normal tt /\
  onMessage sock None s
  = (Normal tt, s, [mkSent sock (MsgError "Invalid message format")]) /\
  onMessage sock (Some Other) s
  = (Normal tt, s, [mkSent sock (MsgError "Unknown message type")]).
Proof.
  repeat split.
  unfold onMessage, tryCatch.
  destruct (match parsed with
            | Some message => handleMessage sock message
            | None => throw "Unexpected token"
            end s) as [[[[]|e] s1] o1]; reflexivity.
Qed.

(** ** Actions from an id without a registry entry *)

(** X5.  The error of a rejected action is addressed to the socket
    registered for the acting id.  When the player to move has no
    registry entry, sending it fails before the automatic fold is
    reached: nobody is folded, the table is as the rejected action left
    it, and the sender is told [Invalid message format]. *)
Theorem unregistered_actor_is_not_folded {E : Engine} (s : Service)
    (sock : WebSocket) (playerId action : string) (amount : option float)
    (player : Player) (reason : string) (t' : Table)
    (Hseat : findPlayer (table s) playerId = Some player)
    (Hturn : isCurrentActor (table s) playerId = true)
    (Hreg : map_get playerId (connectedPlayers s) = None)
    (Hrej : performAction (table s) player action amount = Throws reason t') :
  handlePlayerAction playerId action amount s
  = (Abrupt undefinedSend, withTable t' s, []) /\
  onMessage sock (Some (Action playerId action amount)) s
  = (Normal tt, withTable t' s, [mkSent sock (MsgError "Invalid message format")]).
Proof.
  assert (handlePlayerAction playerId action amount s
          = (Abrupt undefinedSend, withTable t' s, [])) as Hrun.
  { unfold handlePlayerAction, tryCatch at 1.
    unfold attemptAction at 1, bind at 1. cbn [get gets].
    rewrite Hseat, Hturn. cbn [negb].
    unfold bind at 1, callEngine at 1. rewrite Hrej.
    unfold bind at 1. cbn [get gets connectedPlayers withTable].
    rewrite Hreg. reflexivity. }
  split; [exact Hrun|].
  unfold onMessage. cbn [handleMessage]. unfold tryCatch. now rewrite Hrun.
Qed.

(** Alice is to move, nobody is registered, and she sends [dance]. *)
Lemma unregistered_actor_is_not_folded_witness :
  onMessage (E := SpecEngine.engine) 1%nat (Some (Action "alice" "dance" None))
            Scenes.unregisteredActor
  = (Normal tt,
     withTable (table Scenes.unregisteredActor) Scenes.unregisteredActor,
     [mkSent 1%nat (MsgError "Invalid message format")]).
Proof.
  refine (proj2 (unregistered_actor_is_not_folded (E := SpecEngine.engine)
                   Scenes.unregisteredActor 1%nat "alice" "dance" None
                   (player := Demo.alice) (reason := "Invalid action")
                   (t' := table Scenes.unregisteredActor) _ _ _ _));
    reflexivity.
Defined.

(** ** An automatic fold that the engine refuses *)

(** X6.  When the engine throws on the automatic fold, the exception is
    swallowed: the handler completes normally, the player has received
    the error of the rejected action, and neither the auto-fold
    notification nor any state broadcast is sent. *)
Theorem refused_auto_fold_is_swallowed {E : Engine} (s : Service)
    (playerId action : string) (amount : option float) (player : Player)
    (cp : ConnectedPlayer) (reason foldError : string) (t' : Table)
    (Hseat : findPlayer (table s) playerId = Some player)
    (Hturn : isCurrentActor (table s) playerId = true)
    (Hreg : map_get playerId (connectedPlayers s) = Some cp)
    (Hrej : performAction (table s) player action amount = Throws reason (table s))
    (Hfold : foldAction (table s) player = Throws foldError t') :
  handlePlayerAction playerId action amount s
  = (Normal tt, withTable t' s, [mkSent (socket cp) (MsgError reason)]).
Proof.
  unfold handlePlayerAction, tryCatch at 1.
  unfold attemptAction at 1, bind at 1. cbn [get gets].
  rewrite Hseat, Hturn. cbn [negb].
  unfold bind at 1, callEngine at 1. rewrite Hrej, withTable_same.
  unfold bind at 1. cbn [get gets]. rewrite Hreg. cbn [option_map].
  unfold bind at 1, sendError at 1, emit at 1.
  unfold tryCatch, autoFold, bind at 1. cbn [get gets].
  rewrite Hseat, Hturn.
  unfold bind at 1, callEngine at 1. rewrite Hfold. reflexivity.
Qed.

(** On the engine that refuses folds, Alice sends [dance]. *)
Lemma refused_auto_fold_is_swallowed_witness :
  handlePlayerAction (E := FoldlessEngine.engine) "alice" "dance" None Demo.preflop
  = (Normal tt, withTable (table Demo.preflop) Demo.preflop,
     [mkSent (socket Demo.aliceEntry) (MsgError "Invalid action")]).
Proof.
  refine (refused_auto_fold_is_swallowed (E := FoldlessEngine.engine)
            Demo.preflop "alice" "dance" None
            (player := Demo.alice) (cp := Demo.aliceEntry)
            (reason := "Invalid action") (foldError := SpecEngine.illegal)
            (t' := table Demo.preflop) _ _ _ _ _);
    reflexivity.
Defined.

(** ** Joining and leaving *)

(** X7.  A join that the engine accepts registers the joining socket and
    the given name under the id and leaves every other registry entry as
    it was; the joiner's socket gets the player's own [gameState] first,
    then every open client gets the seat list. *)
Theorem join_registers_the_socket {E : Engine} (s : Service) (sock : WebSocket)
    (playerId nm : string) (requested : float) (t' : Table)
    (Hsit : sitDown (table s) playerId FIXED_BUY_IN = Returns t') :
  completion (handlePlayerJoin sock playerId nm requested s) = Normal tt /\
  table (final (handlePlayerJoin sock playerId nm requested s)) = t' /\
  map_get playerId
    (connectedPlayers (final (handlePlayerJoin sock playerId nm requested s)))
  = Some (mkConnected playerId nm sock) /\
  (forall other, other <> playerId ->
     map_get other
       (connectedPlayers (final (handlePlayerJoin sock playerId nm requested s)))
     = map_get other (connectedPlayers s)) /\
  sent (handlePlayerJoin sock playerId nm requested s)
  = mkSent sock
      (MsgPlayerGameState
         (getPlayerState (final (handlePlayerJoin sock playerId nm requested s))
                         playerId))
    :: toAll s
         (MsgPlayers
            (getPublicPlayerStates
               (final (handlePlayerJoin sock playerId nm requested s)))) /\
  reachesAllOpen s
    (MsgPlayers
       (getPublicPlayerStates
          (final (handlePlayerJoin sock playerId nm requested s))))
    (sent (handlePlayerJoin sock playerId nm requested s)).
Proof.
  rewrite (handlePlayerJoin_seated s sock playerId nm requested Hsit).
  cbn [completion final sent fst snd]. unfold joined.
  cbn [table connectedPlayers withRegistry withTable].
  repeat split.
  - apply map_get_set.
  - intros other Hother. now apply map_get_set_other.
  - intros c Hc Hopen. right. now apply toAll_reaches.
Qed.

(** Carol joins the table of two from a third connection. *)
Lemma join_registers_the_socket_witness :
  map_get "carol"
    (connectedPlayers
       (final (handlePlayerJoin (E := SpecEngine.engine) 3%nat "carol" "Carol" 0
                                Demo.seatedPair)))
  = Some (mkConnected "carol" "Carol" 3%nat) /\
  map_get "alice"
    (connectedPlayers
       (final (handlePlayerJoin (E := SpecEngine.engine) 3%nat "carol" "Carol" 0
                                Demo.seatedPair)))
  = Some Demo.aliceEntry.
Proof.
  destruct (join_registers_the_socket (E := SpecEngine.engine)
              Demo.seatedPair 3%nat "carol" "Carol" 0
              (t' := SpecEngine.withPlayers
                       (SpecEngine.placeAt (mkPlayer "carol" 1000 0 false None)
                                           (players (table Demo.seatedPair)))
                       (table Demo.seatedPair))
              eq_refl) as (_ & _ & Hnew & Hkept & _ & _).
  split; [exact Hnew|].
  rewrite (Hkept "alice"); [reflexivity|discriminate].
Defined.

(** X8.  Join and leave undo each other on the registry: when an id
    that is not registered joins and then leaves, and the engine seats
    and unseats it, the registry is exactly the one before the join. *)
Theorem join_then_leave_restores_registry {E : Engine} (s : Service)
    (sock : WebSocket) (playerId nm : string) (requested : float)
    (seated : Player) (t1 t2 : Table)
    (Hnew : map_get playerId (connectedPlayers s) = None)
    (Hsit : sitDown (table s) playerId FIXED_BUY_IN = Returns t1)
    (Hseat : findPlayer t1 playerId = Some seated)
    (Hstand : standUp t1 seated = Returns t2) :
  final (handlePlayerLeave playerId
           (final (handlePlayerJoin sock playerId nm requested s)))
  = withTable t2 s.
Proof.
  rewrite (handlePlayerJoin_seated s sock playerId nm requested Hsit).
  cbn [final fst snd].
  rewrite (handlePlayerLeave_run (joined s sock playerId nm t1) playerId
             (player := seated) (t' := t2)) by assumption.
  cbn [final fst snd]. unfold joined.
  cbn [table connectedPlayers withRegistry withTable wss].
  rewrite map_delete_set_fresh by assumption.
  destruct s; reflexivity.
Qed.

(** Carol joins the table of two and leaves again. *)
Lemma join_then_leave_restores_registry_witness :
  final (handlePlayerLeave (E := SpecEngine.engine) "carol"
           (final (handlePlayerJoin (E := SpecEngine.engine) 3%nat "carol" "Carol" 0
                                    Demo.seatedPair)))
  = withTable
      (SpecEngine.withPlayers
         (map (SpecEngine.vacate "carol")
              (SpecEngine.placeAt (mkPlayer "carol" 1000 0 false None)
                                  (players (table Demo.seatedPair))))
         (SpecEngine.withPlayers
            (SpecEngine.placeAt (mkPlayer "carol" 1000 0 false None)
                                (players (table Demo.seatedPair)))
            (table Demo.seatedPair)))
      Demo.seatedPair.
Proof.
  refine (join_then_leave_restores_registry (E := SpecEngine.engine)
            Demo.seatedPair 3%nat "carol" "Carol" 0
            (seated := mkPlayer "carol" 1000 0 false None)
            (t1 := SpecEngine.withPlayers
                     (SpecEngine.placeAt (mkPlayer "carol" 1000 0 false None)
                                         (players (table Demo.seatedPair)))
                     (table Demo.seatedPair))
            _ _ _ _);
    reflexivity.
Defined.

Example carol_round_trip :
  final (handlePlayerLeave (E := SpecEngine.engine) "carol"
           (final (handlePlayerJoin (E := SpecEngine.engine) 3%nat "carol" "Carol" 0
                                    Demo.seatedPair)))
  = Demo.seatedPair.
Proof. vm_compute. reflexivity. Qed.

(** ** Invariants carried through the handlers *)

Section Respects.

Context {E : Engine}.

Variables (I : Service -> Prop) (O : Sent -> Prop).

Lemma respects_ret {A} (a : A) : respects I O (ret a).
Proof. intros s HI. split; [exact HI|constructor]. Qed.

Lemma respects_throw {A} (e : string) : respects I O (@throw A e).
Proof. intros s HI. split; [exact HI|constructor]. Qed.

Lemma respects_get : respects I O get.
Proof. intros s HI. split; [exact HI|constructor]. Qed.

Lemma respectsAt_bind {A B} (m : M A) (k : A -> M B) (s : Service) :
  respectsAt I O m s -> (forall a, respects I O (k a)) ->
  respectsAt I O (bind m k) s.
Proof.
  intros Hm Hk HI. destruct (Hm HI) as [HI1 HO1]. unfold bind.
  unfold final, sent in *.
  destruct (m s) as [[[a|e] s1] o1]; cbn [fst snd] in *; [|now split].
  destruct (Hk a s1 HI1) as [HI2 HO2]. unfold final, sent in *.
  destruct (k a s1) as [[r s2] o2]; cbn [fst snd] in *.
  split; [exact HI2|]. apply Forall_app. now split.
Qed.

Lemma respects_bind {A B} (m : M A) (k : A -> M B) :
  respects I O m -> (forall a, respects I O (k a)) -> respects I O (bind m k).
Proof. intros Hm Hk s. apply respectsAt_bind; [apply Hm|exact Hk]. Qed.

(** After [s <- get], the continuation runs in the state it was given. *)
Lemma respects_get_bind {B} (k : Service -> M B) :
  (forall s, I s -> respectsAt I O (k s) s) -> respects I O (bind get k).
Proof.
  intros Hk s HI. destruct (Hk s HI HI) as [HI1 HO1].
  unfold bind, get, gets, final, sent in *.
  destruct (k s s) as [[r s1] o1]; cbn [fst snd] in *. now split.
Qed.

Lemma respects_tryCatch {A} (m : M A) (h : string -> M A) :
  respects I O m -> (forall e, respects I O (h e)) -> respects I O (tryCatch m h).
Proof.
  intros Hm Hh s HI. destruct (Hm s HI) as [HI1 HO1]. unfold tryCatch.
  unfold final, sent in *.
  destruct (m s) as [[[a|e] s1] o1]; cbn [fst snd] in *; [now split|].
  destruct (Hh e s1 HI1) as [HI2 HO2]. unfold final, sent in *.
  destruct (h e s1) as [[r s2] o2]; cbn [fst snd] in *.
  split; [exact HI2|]. apply Forall_app. now split.
Qed.

Lemma respects_forEach {A} (l : list A) (f : A -> M unit) :
  (forall x, respects I O (f x)) -> respects I O (forEach l f).
Proof.
  intros Hf. induction l as [|x r IH]; cbn [forEach].
  - apply respects_ret.
  - apply respects_bind; [apply Hf|intros _; exact IH].
Qed.

Lemma respects_modify (f : Service -> Service) :
  (forall s, I s -> I (f s)) -> respects I O (modify f).
Proof. intros Hf s HI. split; [now apply Hf|constructor]. Qed.

Hypothesis table_free : forall s t, I s -> I (withTable t s).

Lemma respects_callEngine (op : Table -> Outcome) : respects I O (callEngine op).
Proof.
  intros s HI. unfold callEngine, final, sent.
  destruct (op (table s)); cbn [fst snd]; (split; [now apply table_free|constructor]).
Qed.

Hypothesis to_open : forall s c message,
  I s -> In c (filter isOpen (wss s)) -> O (mkSent (clientSocket c) message).

Hypothesis to_registered : forall s playerId cp message,
  I s -> map_get playerId (connectedPlayers s) = Some cp ->
  O (mkSent (socket cp) message).

Lemma respects_broadcast (message : ServerMessage) : respects I O (broadcast message).
Proof.
  intros s HI. split; [exact HI|].
  unfold broadcast, bind, get, gets, emit, sent, toAll. cbn [snd app].
  apply Forall_forall. intros x Hx. apply in_map_iff in Hx as (c & <- & Hc).
  eapply to_open; eassumption.
Qed.

Lemma respects_sendToPlayer (playerId : string) (message : ServerMessage) :
  respects I O (sendToPlayer playerId message).
Proof.
  intros s HI. unfold sendToPlayer, bind, get, gets, final, sent.
  destruct (map_get playerId (connectedPlayers s)) as [cp|] eqn:Hcp;
    cbn [fst snd app]; (split; [exact HI|]); [|constructor].
  constructor; [|constructor]. eapply to_registered; eassumption.
Qed.

Lemma respects_broadcastGameState : respects I O broadcastGameState.
Proof.
  unfold broadcastGameState.
  apply respects_bind; [apply respects_get|]. intros s.
  apply respects_bind; [apply respects_broadcast|]. intros _.
  apply respects_forEach. intros entry.
  apply respects_bind; [apply respects_get|]. intros s'.
  apply respects_sendToPlayer.
Qed.

Lemma respects_checkHandOver : respects I O checkHandOver.
Proof.
  unfold checkHandOver.
  apply respects_bind; [apply respects_get|]. intros s.
  destruct (currentRound (table s)); [apply respects_ret|].
  unfold handleHandComplete.
  apply respects_bind; [apply respects_get|]. intros s'.
  apply respects_broadcast.
Qed.

Lemma respects_attemptAction (playerId action : string) (amount : option float) :
  respects I O (attemptAction playerId action amount).
Proof.
  unfold attemptAction.
  apply respects_bind; [apply respects_get|]. intros s.
  destruct (findPlayer (table s) playerId) as [player|]; [|apply respects_throw].
  destruct (negb (isCurrentActor (table s) playerId)); [apply respects_throw|].
  apply respects_bind; [apply respects_callEngine|]. intros _.
  apply respects_bind; [apply respects_broadcastGameState|]. intros _.
  apply respects_checkHandOver.
Qed.

Lemma respects_autoFold (playerId error : string) :
  respects I O (autoFold playerId error).
Proof.
  unfold autoFold.
  apply respects_bind; [apply respects_get|]. intros s.
  destruct (findPlayer (table s) playerId) as [player|]; [|apply respects_ret].
  destruct (isCurrentActor (table s) playerId); [|apply respects_ret].
  apply respects_bind; [apply respects_callEngine|]. intros _.
  apply respects_bind; [apply respects_get|]. intros s'.
  apply respects_bind; [apply respects_broadcast|]. intros _.
  apply respects_bind; [apply respects_broadcastGameState|]. intros _.
  apply respects_checkHandOver.
Qed.

Lemma respects_handlePlayerAction (playerId action : string) (amount : option float) :
  respects I O (handlePlayerAction playerId action amount).
Proof.
  unfold handlePlayerAction.
  apply respects_tryCatch; [apply respects_attemptAction|]. intros error.
  apply respects_get_bind. intros s HI.
  apply respectsAt_bind.
  - intros _. unfold sendError, final, sent.
    destruct (map_get playerId (connectedPlayers s)) as [cp|] eqn:Hcp;
      cbn [option_map emit throw fst snd]; (split; [exact HI|]); [|constructor].
    constructor; [|constructor]. eapply to_registered; eassumption.
  - intros _. apply respects_tryCatch; [apply respects_autoFold|].
    intros _. apply respects_ret.
Qed.

Lemma respects_startNewHand : respects I O startNewHand.
Proof.
  unfold startNewHand. apply respects_tryCatch.
  - apply respects_bind; [apply respects_callEngine|]. intros _.
    apply respects_broadcastGameState.
  - intros _. apply respects_broadcast.
Qed.

End Respects.

(** ** Sessions are untouched by actions and starts *)

(** X11.  Handling an action message or a start request never registers
    or unregisters anyone and never changes the server's client list,
    whatever the engine does and whether or not the request is accepted:
    only joins, leaves and restarts change the registry. *)
Theorem actions_and_starts_keep_sessions {E : Engine} (s : Service)
    (playerId action : string) (amount : option float) :
  sameSessions s (final (handlePlayerAction playerId action amount s)) /\
  sameSessions s (final (startNewHand s)).
Proof.
  assert (forall s' t, sameSessions s s' -> sameSessions s (withTable t s'))
    as Htable by (intros s' t H; exact H).
  assert (sameSessions s s) as Hstart by (split; reflexivity).
  split.
  - destruct (@respects_handlePlayerAction E (sameSessions s) (fun _ => True)
                Htable (fun _ _ _ _ _ => Logic.I) (fun _ _ _ _ _ _ => Logic.I)
                playerId action amount s Hstart) as [Hkept _].
    exact Hkept.
  - destruct (@respects_startNewHand E (sameSessions s) (fun _ => True)
                Htable (fun _ _ _ _ _ => Logic.I) (fun _ _ _ _ _ _ => Logic.I)
                s Hstart) as [Hkept _].
    exact Hkept.
Qed.

(** ** Whom the server writes to *)

Section Known.

Context {E : Engine}.

Variables (s0 : Service) (sock : WebSocket).

Lemma known_table_free (s : Service) (t : Table) :
  withinKnown s0 sock s -> withinKnown s0 sock (withTable t s).
Proof. intros H. exact H. Qed.

Lemma known_to_open (s : Service) (c : Client) (message : ServerMessage) :
  withinKnown s0 sock s -> In c (filter isOpen (wss s)) ->
  toKnown s0 sock (mkSent (clientSocket c) message).
Proof.
  intros [Hwss _] Hc. rewrite Hwss in Hc. right. left.
  cbn [recipient]. now apply in_map.
Qed.

Lemma known_to_registered (s : Service) (playerId : string)
    (cp : ConnectedPlayer) (message : ServerMessage) :
  withinKnown s0 sock s -> map_get playerId (connectedPlayers s) = Some cp ->
  toKnown s0 sock (mkSent (socket cp) message).
Proof. intros [_ Hreg] Hcp. exact (Hreg _ _ Hcp). Qed.

Lemma known_reply (error : string) :
  respects (withinKnown s0 sock) (toKnown s0 sock) (sendError (Some sock) error).
Proof.
  intros s HI. split; [exact HI|].
  constructor; [|constructor]. now left.
Qed.

Lemma known_handlePlayerJoin (playerId nm : string) (requested : float) :
  respects (withinKnown s0 sock) (toKnown s0 sock)
           (handlePlayerJoin sock playerId nm requested).
Proof.
  unfold handlePlayerJoin. apply respects_tryCatch; [|intros e; apply known_reply].
  apply respects_bind; [apply respects_callEngine, known_table_free|]. intros _.
  apply respects_bind.
  - apply respects_modify. intros s [Hwss Hreg]. split; [exact Hwss|].
    intros other cp. cbn [connectedPlayers withRegistry].
    destruct (String.eqb_spec other playerId) as [->|Hother].
    + rewrite map_get_set. intros Hcp. inversion Hcp; subst cp. now left.
    + rewrite map_get_set_other by assumption. apply Hreg.
  - intros _. apply respects_bind; [apply respects_get|]. intros s.
    apply respects_bind;
      [apply respects_sendToPlayer, known_to_registered|]. intros _.
    apply respects_bind; [apply respects_get|]. intros s'.
    apply respects_broadcast, known_to_open.
Qed.

Lemma known_restartGame :
  respects (withinKnown s0 sock) (toKnown s0 sock) restartGame.
Proof.
  unfold restartGame.
  apply respects_bind; [apply respects_modify; intros s H; exact H|]. intros _.
  apply respects_bind.
  - apply respects_modify. intros s [Hwss _]. split; [exact Hwss|].
    intros other cp. cbn. discriminate.
  - intros _. apply respects_bind; [apply respects_broadcast, known_to_open|].
    intros _.
    apply respects_broadcastGameState;
      [apply known_to_open|apply known_to_registered].
Qed.

Lemma known_handleMessage (message : ClientMessage) :
  respects (withinKnown s0 sock) (toKnown s0 sock) (handleMessage sock message).
Proof.
  destruct message as [playerId nm requested|playerId action amount| | |];
    cbn [handleMessage].
  - apply known_handlePlayerJoin.
  - apply respects_handlePlayerAction;
      [apply known_table_free|apply known_to_open|apply known_to_registered].
  - apply respects_startNewHand;
      [apply known_table_free|apply known_to_open|apply known_to_registered].
  - apply known_restartGame.
  - apply known_reply.
Qed.

End Known.

(** X12.  Whatever message arrives, every reply of the server goes to
    the socket the message came from, to an open client of the server, or
    to a socket held in the registry when the message arrived; and the
    registry afterwards still holds such sockets only. *)
Theorem replies_go_to_known_sockets {E : Engine} (s : Service) (sock : WebSocket)
    (parsed : option ClientMessage) :
  Forall (fun x => knownSocket s sock (recipient x)) (sent (onMessage sock parsed s)) /\
  withinKnown s sock (final (onMessage sock parsed s)).
Proof.
  assert (withinKnown s sock s) as Hstart.
  { split; [reflexivity|]. intros playerId cp Hcp. right. right. eauto. }
  assert (respects (withinKnown s sock) (toKnown s sock) (onMessage sock parsed))
    as Hrun.
  { unfold onMessage. apply respects_tryCatch; [|intros _; apply known_reply].
    destruct parsed as [message|]; [apply known_handleMessage|apply respects_throw]. }
  destruct (Hrun s Hstart) as [Hfinal Hsent]. split; [exact Hsent|exact Hfinal].
Qed.

(** ** Accepted requests *)

Lemma toAll_payload (s : Service) (message : ServerMessage) (x : Sent) :
  In x (toAll s message) -> payload x = message.
Proof.
  unfold toAll. intros Hx. apply in_map_iff in Hx as (c & <- & _). reflexivity.
Qed.

Lemma privateSends_payload {E : Engine} (s : Service) (x : Sent) :
  In x (privateSends s) -> exists pv, payload x = MsgPrivateState pv.
Proof.
  unfold privateSends. intros Hx. apply in_flat_map in Hx as (entry & _ & Hx).
  unfold privateSendFor in Hx.
  destruct (map_get (fst entry) (connectedPlayers s)); [|contradiction].
  destruct Hx as [<-|[]]. cbn [payload]. eexists. reflexivity.
Qed.

(** Neither the state broadcasts nor the hand result hold an error. *)
Lemma announcements_hold_no_error {E : Engine} (s : Service) :
  ~ Exists isError (gameStateSends s ++ handOverSends s).
Proof.
  intros H. apply Exists_exists in H as (x & Hx & e & He).
  unfold gameStateSends, handOverSends in Hx.
  rewrite !in_app_iff in Hx. destruct Hx as [[Hx|Hx]|Hx].
  - apply toAll_payload in Hx. congruence.
  - apply privateSends_payload in Hx as [pv Hpv]. congruence.
  - destruct (currentRound (table s)); [contradiction|].
    apply toAll_payload in Hx. unfold handCompleteMessage in Hx. congruence.
Qed.

(** X13.  An action of the player to move that passes the service's
    checks and that the engine applies is answered by broadcasts only:
    the public state of the new table to every open client, the private
    state to every registered player and, exactly when the engine left no
    round open, the hand result.  The table is the engine's; no error is
    sent to anyone. *)
Theorem accepted_action_is_broadcast {E : Engine} (s : Service)
    (playerId action : string) (amount : option float) (player : Player)
    (t' : Table)
    (Hseat : findPlayer (table s) playerId = Some player)
    (Hturn : isCurrentActor (table s) playerId = true)
    (Hdone : performAction (table s) player action amount = Returns t') :
  completion (handlePlayerAction playerId action amount s) = Normal tt /\
  final (handlePlayerAction playerId action amount s) = withTable t' s /\
  sent (handlePlayerAction playerId action amount s)
  = toAll s (MsgGameState (publicState (withTable t' s)))
    ++ privateSends (withTable t' s)
    ++ match currentRound t' with
       | None => toAll s (handCompleteMessage t')
       | Some _ => []
       end /\
  ~ Exists isError (sent (handlePlayerAction playerId action amount s)) /\
  reachesAllOpen s (MsgGameState (publicState (withTable t' s)))
                 (sent (handlePlayerAction playerId action amount s)).
Proof.
  rewrite (accepted_action_is_applied s playerId action amount Hseat Hturn Hdone).
  cbn [completion final sent fst snd].
  split; [reflexivity|]. split; [reflexivity|]. split; [|split].
  - unfold gameStateSends, handOverSends. now rewrite <- app_assoc.
  - apply announcements_hold_no_error.
  - intros c Hc Hopen. unfold gameStateSends. rewrite <- app_assoc.
    apply in_or_app. left.
    now apply (toAll_reaches (withTable t' s)).
Qed.

(** Alice, the small blind, calls. *)
Lemma accepted_action_is_broadcast_witness :
  exists t',
    performAction (E := SpecEngine.engine) (table Demo.preflop) Demo.alice
                  "call" None = Returns t' /\
    final (handlePlayerAction (E := SpecEngine.engine) "alice" "call" None
                              Demo.preflop)
    = withTable t' Demo.preflop /\
    ~ Exists isError
        (sent (handlePlayerAction (E := SpecEngine.engine) "alice" "call" None
                                  Demo.preflop)).
Proof.
  destruct (performAction (E := SpecEngine.engine) (table Demo.preflop) Demo.alice
                          "call" None)
    as [t'|e t'] eqn:Hdone; [|vm_compute in Hdone; discriminate Hdone].
  assert (findPlayer (table Demo.preflop) "alice" = Some Demo.alice) as Hseat
    by (vm_compute; reflexivity).
  assert (isCurrentActor (table Demo.preflop) "alice" = true) as Hturn
    by (vm_compute; reflexivity).
  exists t'. split; [reflexivity|].
  destruct (accepted_action_is_broadcast (E := SpecEngine.engine)
              Demo.preflop "alice" "call" None Hseat Hturn Hdone)
    as (_ & Hfinal & _ & Hclean & _).
  split; [exact Hfinal|exact Hclean].
Defined.

Lemma startNewHand_dealt {E : Engine} (s : Service) (t' : Table) :
  dealCards (table s) = Returns t' ->
  startNewHand s = (Normal tt, withTable t' s, gameStateSends (withTable t' s)).
Proof.
  intros Hdeal. unfold startNewHand. apply tryCatch_normal.
  unfold bind at 1, callEngine at 1. rewrite Hdeal.
  now rewrite broadcastGameState_run.
Qed.

(** X14.  When the engine deals, a start request is answered by the
    public state of the dealt table to every open client and one private
    state per registry entry, served as [broadcastGameState] serves it;
    no error and no hand result is sent. *)
Theorem dealt_hand_is_broadcast {E : Engine} (s : Service) (t' : Table)
    (Hdeal : dealCards (table s) = Returns t') :
  startNewHand s
  = (Normal tt, withTable t' s,
     toAll s (MsgGameState (publicState (withTable t' s)))
     ++ privateSends (withTable t' s)) /\
  Forall2 (privatelyServed (withTable t' s)) (connectedPlayers s)
          (privateSends (withTable t' s)) /\
  ~ Exists isError (sent (startNewHand s)) /\
  reachesAllOpen s (MsgGameState (publicState (withTable t' s)))
                 (sent (startNewHand s)).
Proof.
  rewrite (startNewHand_dealt s Hdeal). cbn [sent snd].
  split; [reflexivity|]. split; [|split].
  - apply Forall2_flat_map. intros [k v] Hin.
    destruct (map_get_present _ _ _ Hin) as [cp Hcp].
    unfold privateSendFor. cbn [fst]. rewrite Hcp.
    eexists. split; [reflexivity|].
    exists cp, (privateState (withTable t' s) k). cbn [recipient payload].
    split; [exact Hcp|]. split; [reflexivity|]. split; [reflexivity|].
    apply privateState_ownView.
  - intros H. apply Exists_exists in H as (x & Hx & e & He).
    unfold gameStateSends in Hx. rewrite in_app_iff in Hx. destruct Hx as [Hx|Hx].
    + apply toAll_payload in Hx. congruence.
    + apply privateSends_payload in Hx as [pv Hpv]. congruence.
  - intros c Hc Hopen. unfold gameStateSends. apply in_or_app. left.
    now apply (toAll_reaches (withTable t' s)).
Qed.

(** The hand is dealt to Alice and Bob. *)
Lemma dealt_hand_is_broadcast_witness :
  exists t',
    dealCards (Engine := SpecEngine.engine) (table Demo.seatedPair) = Returns t' /\
    startNewHand (E := SpecEngine.engine) Demo.seatedPair
    = (Normal tt, withTable t' Demo.seatedPair,
       toAll Demo.seatedPair (MsgGameState (publicState (withTable t' Demo.seatedPair)))
       ++ privateSends (E := SpecEngine.engine) (withTable t' Demo.seatedPair)).
Proof.
  destruct (dealCards (Engine := SpecEngine.engine) (table Demo.seatedPair))
    as [t'|e t'] eqn:Hdeal; [|vm_compute in Hdeal; discriminate Hdeal].
  exists t'. split; [reflexivity|].
  exact (proj1 (dealt_hand_is_broadcast (E := SpecEngine.engine)
                  Demo.seatedPair Hdeal)).
Defined.

(** ** The automatic fold and the fold a player asks for *)

(** X15.  On an engine that rejects atomically and lets the player to
    move fold, a rejected action of the registered player to move leaves
    the service in the very state a [fold] message of that player would
    have left it in, and sends what that [fold] would have sent, after
    the error to the player and the auto-fold notice to everyone. *)
Theorem auto_fold_is_a_fold {E : Engine}
    (Hatomic : rejections_atomic E) (Hfold : fold_always_legal E)
    (s : Service) (playerId action : string) (amount : option float)
    (player : Player) (cp : ConnectedPlayer) (reason : string) (t' : Table)
    (Hseat : findPlayer (table s) playerId = Some player)
    (Hturn : isCurrentActor (table s) playerId = true)
    (Hreg : map_get playerId (connectedPlayers s) = Some cp)
    (Hrej : performAction (table s) player action amount = Throws reason t') :
  final (handlePlayerAction playerId action amount s)
  = final (handlePlayerAction playerId "fold" None s) /\
  sent (handlePlayerAction playerId action amount s)
  = mkSent (socket cp) (MsgError reason)
    :: toAll s (autoFoldNotice s playerId reason)
    ++ sent (handlePlayerAction playerId "fold" None s) /\
  (exists rest,
     sent (handlePlayerAction playerId action amount s)
     = mkSent (socket cp) (MsgError reason) :: rest /\
     reachesAllOpen s
       (MsgNotification
          ((if (name cp =? "")%string then "Player" else name cp)
           ++ " auto-folded due to invalid action: " ++ reason)%string)
       rest).
Proof.
  pose proof (findPlayer_id _ _ Hseat) as Hid.
  destruct (Hfold (table s) player) as [afterFold Hfolded];
    [now rewrite Hid | now rewrite Hid |].
  rewrite (accepted_action_is_applied s playerId "fold" None
             (player := player) (t' := afterFold) Hseat Hturn Hfolded).
  rewrite (rejected_action_run Hatomic s playerId action amount
             Hseat Hturn Hreg Hrej Hfolded).
  cbn [final sent fst snd].
  split; [reflexivity|]. split; [reflexivity|].
  eexists. split; [reflexivity|].
  intros c Hc Hopen. apply in_or_app. left.
  unfold autoFoldNotice, displayName. rewrite Hreg.
  now apply toAll_reaches.
Qed.

(** Alice, to move, sends [dance]: the table ends up as if she had
    folded. *)
Lemma auto_fold_is_a_fold_witness :
  final (handlePlayerAction (E := SpecEngine.engine) "alice" "dance" None Demo.preflop)
  = final (handlePlayerAction (E := SpecEngine.engine) "alice" "fold" None Demo.preflop).
Proof.
  assert (findPlayer (table Demo.preflop) "alice" = Some Demo.alice) as Hseat
    by (vm_compute; reflexivity).
  assert (isCurrentActor (table Demo.preflop) "alice" = true) as Hturn
    by (vm_compute; reflexivity).
  assert (map_get "alice" (connectedPlayers Demo.preflop) = Some Demo.aliceEntry)
    as Hreg by (vm_compute; reflexivity).
  assert (performAction (E := SpecEngine.engine) (table Demo.preflop) Demo.alice
                        "dance" None
          = Throws "Invalid action" (table Demo.preflop)) as Hrej
    by reflexivity.
  exact (proj1 (auto_fold_is_a_fold SpecEngineFacts.rejections_are_atomic
                  SpecEngineFacts.fold_is_always_legal
                  Demo.preflop "alice" "dance" None Hseat Hturn Hreg Hrej)).
Defined.

(** ** Sequences of actions out of turn *)

(** Bob, then an unknown id, act while it is Alice's turn. *)
Lemma out_of_turn_actions_change_nothing_witness :
  deliver (E := SpecEngine.engine)
          [(2%nat, Action "bob" "fold" None);
           (2%nat, Action "bob" "raise" (Some 100%float));
           (3%nat, Action "mallory" "call" None)]
          Demo.preflop
  = Demo.preflop.
Proof.
  apply (out_of_turn_actions_change_nothing (E := SpecEngine.engine)).
  repeat constructor.
Defined.

(** ** The whose-turn flag *)

Lemma isCurrentActor_same_id (t : Table) (a b : string) :
  isCurrentActor t a = true -> isCurrentActor t b = true -> a = b.
Proof.
  unfold isCurrentActor. destruct (currentActor t) as [p|]; [|discriminate].
  intros Ha Hb. apply String.eqb_eq in Ha, Hb. congruence.
Qed.

Lemma no_flag_elsewhere (s : Service) (a : string) (l : list (option Player)) :
  isCurrentActor (table s) a = true ->
  ~ In a (flat_map (fun seat => match seat with Some p => [id p] | None => [] end) l) ->
  filter flagged (map (option_map (publicPlayer s)) l) = [].
Proof.
  intros Ha. induction l as [|[p|] r IH]; cbn [flat_map map filter app];
    intros Hnot; [reflexivity| |now apply IH].
  cbn [option_map flagged publicPlayer pub_isCurrentActor].
  destruct (isCurrentActor (table s) (id p)) eqn:Hp.
  - exfalso. apply Hnot. left. now apply (isCurrentActor_same_id (table s)).
  - apply IH. intros Hin. apply Hnot. now right.
Qed.

(** X16.  In the seat list of the public projections, a seat carries
    the whose-turn flag only if its id is the current actor's id, and
    when the seated ids are pairwise distinct at most one seat carries
    it. *)
Theorem turn_flag_marks_one_seat (s : Service)
    (Hdistinct : NoDup (seatIds (table s))) :
  (length (filter flagged (getPublicPlayerStates s)) <= 1)%nat /\
  Forall (fun seat =>
            match seat with
            | Some p =>
                pub_isCurrentActor p = false
                \/ g_currentActor (publicState s) = Some (pub_id p)
            | None => True
            end)
         (getPublicPlayerStates s).
Proof.
  split.
  - unfold getPublicPlayerStates, seatIds in *.
    induction (players (table s)) as [|[p|] r IH];
      cbn [flat_map map filter app] in *; [cbn; lia| |now apply IH].
    inversion Hdistinct as [|? ? Hfresh Hrest]; subst.
    cbn [option_map flagged publicPlayer pub_isCurrentActor].
    destruct (isCurrentActor (table s) (id p)) eqn:Hp; [|now apply IH].
    rewrite (no_flag_elsewhere s (id p) r Hp Hfresh). cbn. lia.
  - apply Forall_forall. intros [q|] Hq; [|exact Logic.I].
    unfold getPublicPlayerStates in Hq. apply in_map_iff in Hq as ([p|] & Hp & _);
      [|discriminate].
    cbn [option_map] in Hp. inversion Hp; subst q; clear Hp.
    cbn [publicPlayer pub_isCurrentActor pub_id publicState g_currentActor].
    unfold isCurrentActor. destruct (currentActor (table s)) as [a|]; [|now left].
    destruct (String.eqb_spec (id a) (id p)) as [Heq|_]; [|now left].
    right. cbn [option_map]. now rewrite Heq.
Qed.

(** The dealt hand: only Alice's seat is flagged. *)
Lemma turn_flag_marks_one_seat_witness :
  (length (filter flagged (getPublicPlayerStates Demo.preflop)) <= 1)%nat.
Proof.
  assert (NoDup (seatIds (table Demo.preflop))) as Hdistinct.
  { vm_compute. repeat constructor; cbn; intuition discriminate. }
  exact (proj1 (turn_flag_marks_one_seat Demo.preflop Hdistinct)).
Defined.
